(** * ds-text-editor: the editing engine of [server.js]

    A shallow embedding of the four data structures of the editor
    server (rope buffer, prefix trie, undo/redo stacks, Boyer-Moore
    search) and of the routes that combine them, with the properties
    its specification states about them.

    Conventions of the embedding.
    - A JavaScript string is the list of its code units; code units
      are the 8-bit characters of [ascii] (the Latin-1 range), on
      which a code unit and a code point coincide.
    - A JavaScript number used as an index is an integer of [Z];
      [undefined] and [NaN] are [None].
    - Methods that mutate [this] take the object and return the new
      object next to the returned value.
    - [src/server.js] is the current revision; the earlier revision
      (the second source file) differs in [Rope.delete], the cap of
      [_findAllWords] and the update route; what is taken from it is
      marked. *)

From Stdlib Require Import ZArith Ascii String.
From stdpp Require Import gmap strings list fin_maps sorting.

Open Scope Z_scope.

(** * The program *)

(** ** JavaScript strings *)

Abbreviation jstring := (list ascii).

(** A string literal as a JavaScript string. *)
Definition js (s : string) : jstring := list_ascii_of_string s.

(** [s.length] *)
Definition len (s : jstring) : Z := Z.of_nat (length s).

(** The relative-index rule of [String.prototype.slice]: a negative
    index counts from the end, and the result is clamped into
    [0 .. len]. *)
Definition clampIndex (n i : Z) : Z :=
  if i <? 0 then Z.max (n + i) 0 else Z.min i n.

(** [s.slice(start, end)] *)
Definition slice (s : jstring) (start end_ : Z) : jstring :=
  let from := clampIndex (len s) start in
  let to := clampIndex (len s) end_ in
  take (Z.to_nat (Z.max (to - from) 0)) (drop (Z.to_nat from) s).

(** [s.slice(start)]: the end defaults to [s.length]. *)
Definition sliceFrom (s : jstring) (start : Z) : jstring :=
  slice s start (len s).

(** [s[i]]: [undefined] outside [0 .. len - 1]. *)
Definition charAt (s : jstring) (i : Z) : option ascii :=
  if i <? 0 then None else s !! Z.to_nat i.

(** [c.toLowerCase()] on a code unit of the Latin-1 range: the letters
    A-Z and the accented capitals U+00C0-U+00DE (U+00D7, the
    multiplication sign, apart) move up by 32; nothing else changes. *)
Definition lowerChar (c : ascii) : ascii :=
  let n := N_of_ascii c in
  if ((65 <=? n) && (n <=? 90)
      || (192 <=? n) && (n <=? 222) && negb (n =? 215))%N
  then ascii_of_N (n + 32) else c.

(** [s.toLowerCase()] *)
Definition toLowerCase (s : jstring) : jstring := map lowerChar s.

(** ** Arrays *)

(** JavaScript arrays used as stacks, in array order: [push] adds at
    the end, [pop] takes from the end, [shift] from the front. *)
Section Arrays.
Context {A : Type}.

Definition push (l : list A) (x : A) : list A := l ++ [x].

(** [l.pop()]: the array after the call and the removed element
    ([undefined] on the empty array). *)
Definition pop (l : list A) : list A * option A := (removelast l, last l).

(** [l.shift()], the array after the call. *)
Definition shift (l : list A) : list A := tail l.
End Arrays.

(** ** Objects *)

(** A JavaScript object whose property names are single characters,
    as the list of its own properties in enumeration order: the names
    that are array indices (the digits) come first, in ascending order,
    then the other names in the order they were created. *)
Section Objects.
Context {V : Type}.

Definition isIndexKey (k : ascii) : bool :=
  ((48 <=? N_of_ascii k) && (N_of_ascii k <=? 57))%N.

(** [o[k]] *)
Fixpoint getProp (o : list (ascii * V)) (k : ascii) : option V :=
  match o with
  | [] => None
  | (k', v) :: o' => if decide (k' = k) then Some v else getProp o' k
  end.

(** A new index-named property goes before the first property that
    is not index-named or has a greater index. *)
Fixpoint addIndexProp (o : list (ascii * V)) (k : ascii) (v : V) : list (ascii * V) :=
  match o with
  | [] => [(k, v)]
  | (k', v') :: o' =>
      if isIndexKey k' && (N_of_ascii k' <? N_of_ascii k)%N
      then (k', v') :: addIndexProp o' k v
      else (k, v) :: o
  end.

(** A property created under a name the object does not have. *)
Definition addProp (o : list (ascii * V)) (k : ascii) (v : V) : list (ascii * V) :=
  if isIndexKey k then addIndexProp o k v else o ++ [(k, v)].

(** The value of an existing property replaced, in place. *)
Fixpoint replaceProp (o : list (ascii * V)) (k : ascii) (v : V) : list (ascii * V) :=
  match o with
  | [] => []
  | (k', v') :: o' =>
      if decide (k' = k) then (k, v) :: o' else (k', v') :: replaceProp o' k v
  end.

(** [o[k] = v] *)
Definition assignProp (o : list (ascii * V)) (k : ascii) (v : V) : list (ascii * V) :=
  match getProp o k with
  | Some _ => replaceProp o k v
  | None => addProp o k v
  end.
End Objects.

(** ** 1. Rope *)

Module Rope.

(** [class RopeNode]: [left] and [right] are [null] or a node. *)
#[local] Unset Elimination Schemes.
Inductive RopeNode : Type :=
  mkRopeNode (value : jstring) (left_ right_ : option RopeNode) (weight : Z).
#[local] Set Elimination Schemes.

(** [new RopeNode(value)] *)
Definition newRopeNode (value : jstring) : RopeNode :=
  mkRopeNode value None None (len value).

(** [toString(node)] on a node that is not [null]. *)
Fixpoint nodeToString (node : RopeNode) : jstring :=
  match node with
  | mkRopeNode value None None _ => value
  | mkRopeNode _ l r _ =>
      match l with Some x => nodeToString x | None => [] end ++
      match r with Some x => nodeToString x | None => [] end
  end.

(** [class Rope] *)
Record Rope : Type := mkRope { root : RopeNode }.

(** [new Rope(str)] *)
Definition newRope (str : jstring) : Rope := mkRope (newRopeNode str).

(** [toString()] with the default argument [this.root]. *)
Definition toString (r : Rope) : jstring := nodeToString (root r).

(** [insert(index, text)]: the rope after the call and the returned
    string. *)
Definition insert (r : Rope) (index : Z) (text : jstring) : Rope * jstring :=
  let currentText := toString r in
  let newText := slice currentText 0 index ++ text ++ sliceFrom currentText index in
  (mkRope (newRopeNode newText), newText).

(** [delete(start, end)], from the earlier revision. *)
Definition delete (r : Rope) (start end_ : Z) : Rope * jstring :=
  let currentText := toString r in
  let newText := slice currentText 0 start ++ sliceFrom currentText end_ in
  (mkRope (newRopeNode newText), newText).

(** [_updateWeight(node)], from the earlier revision: the weight is
    recomputed from the left child and its right child, or from the
    value when there is no left child (an empty value is falsy). *)
Definition _updateWeight (node : option RopeNode) : option RopeNode :=
  match node with
  | None => None
  | Some (mkRopeNode value l r _) =>
      Some (mkRopeNode value l r
              match l with
              | Some (mkRopeNode _ _ lr lw) =>
                  lw + match lr with
                       | Some (mkRopeNode _ _ _ lrw) => lrw
                       | None => 0
                       end
              | None => if bool_decide (value ≠ []) then len value else 0
              end)
  end.

End Rope.

(** ** 2. Trie *)

Module Trie.

(** [class TrieNode] *)
#[local] Unset Elimination Schemes.
Inductive TrieNode : Type :=
  mkTrieNode (children : list (ascii * TrieNode)) (isEndOfWord : bool).
#[local] Set Elimination Schemes.

Definition children (node : TrieNode) : list (ascii * TrieNode) :=
  match node with mkTrieNode c _ => c end.

Definition isEndOfWord (node : TrieNode) : bool :=
  match node with mkTrieNode _ e => e end.

(** [new TrieNode()] *)
Definition newTrieNode : TrieNode := mkTrieNode [] false.

(** [class Trie] *)
Record Trie : Type := mkTrie { root : TrieNode }.

(** [new Trie()] *)
Definition newTrie : Trie := mkTrie newTrieNode.

(** The loop of [insert] from a node on: the node after the rest of
    the word has been walked, created where missing, and marked. *)
Fixpoint insertFrom (node : TrieNode) (word : jstring) : TrieNode :=
  match word with
  | [] => mkTrieNode (children node) true
  | char :: rest =>
      let child :=
        match getProp (children node) char with
        | Some child => child
        | None => newTrieNode
        end in
      mkTrieNode (assignProp (children node) char (insertFrom child rest))
                 (isEndOfWord node)
  end.

(** [insert(word)] *)
Definition insert (t : Trie) (word : jstring) : Trie :=
  mkTrie (insertFrom (root t) (toLowerCase word)).

(** The loop of [find]: the node at the end of the path, or nothing
    when a child is missing. *)
Fixpoint descend (node : TrieNode) (path : jstring) : option TrieNode :=
  match path with
  | [] => Some node
  | char :: rest =>
      match getProp (children node) char with
      | None => None
      | Some child => descend child rest
      end
  end.

(** [_findAllWords(node, currentPrefix)]; [cap] is the bound of the
    final [slice(0, cap)]: 8 in the current revision, 10 in the earlier
    one. *)
Fixpoint _findAllWords (cap : nat) (node : TrieNode) (currentPrefix : jstring)
  : list jstring :=
  match node with
  | mkTrieNode children isEndOfWord =>
      let results := if isEndOfWord then [currentPrefix] else [] in
      let results :=
        foldl (λ results p,
                 results ++ _findAllWords cap p.2 (currentPrefix ++ [p.1]))
              results children in
      take cap results
  end.

(** [find(prefix)] *)
Definition find (cap : nat) (t : Trie) (prefix : jstring) : list jstring :=
  let prefix := toLowerCase prefix in
  match descend (root t) prefix with
  | None => []
  | Some node => _findAllWords cap node prefix
  end.

(** The loop of [contains] from a node on. *)
Fixpoint containsFrom (node : TrieNode) (word : jstring) : bool :=
  match word with
  | [] => isEndOfWord node
  | char :: rest =>
      match getProp (children node) char with
      | None => false
      | Some child => containsFrom child rest
      end
  end.

(** [contains(word)] *)
Definition contains (t : Trie) (word : jstring) : bool :=
  containsFrom (root t) (toLowerCase word).

(** The cap of the current revision. *)
Definition cap : nat := 8.

(** The base dictionary. *)
Definition keywords : list jstring := map js
  [ "function"; "return"; "const"; "let"; "var"; "import"; "export"; "class";
    "console"; "log"; "async"; "await"; "structure"; "rope"; "trie"; "stack";
    "algorithm"; "linkedlist"; "queue"; "heap"; "graph"; "traverse"; "binary";
    "the"; "be"; "to"; "of"; "and"; "a"; "in"; "that"; "have"; "i"; "it"; "for";
    "not"; "on"; "with"; "he"; "as"; "you"; "do"; "at"; "this"; "but"; "his";
    "by"; "from"; "they"; "we"; "say"; "her"; "she"; "or"; "an"; "will"; "my";
    "one"; "all"; "would"; "there"; "their"; "what"; "so"; "up"; "out"; "if";
    "about"; "who"; "get"; "which"; "go"; "me"; "when"; "make"; "can"; "like";
    "time"; "no"; "just"; "him"; "know"; "take"; "people"; "into"; "year";
    "good"; "some"; "could"; "them"; "see"; "other"; "than"; "then"; "now";
    "look"; "only"; "come"; "its"; "over"; "think"; "also"; "back"; "after";
    "use"; "two"; "how"; "our"; "work"; "first"; "well"; "way"; "even"; "new";
    "want"; "because"; "any"; "these"; "give"; "most"; "us"; "many"; "must";
    "before"; "call"; "down"; "find"; "better"; "editor"; "project";
    "learning"; "data"; "efficient"; "modern"; "design"; "development";
    "program"; "search"; "replace"; "option"; "using"; "implement"; "create";
    "application"; "text"; "file"; "tab"; "split"; "hello"; "world"; "welcome";
    "demo"; "check"; "spelling"; "error"; "correct"; "wrong"; "right"; "code";
    "web"; "is"; "are"; "am"; "was"; "were"; "been"; "being" ]%string.

(** The trie after the given words have been inserted, in order. *)
Definition insertAll (t : Trie) (words : list jstring) : Trie :=
  foldl insert t words.

(** [suggestionTrie] once the module has been loaded. *)
Definition suggestionTrie : Trie := insertAll newTrie keywords.

End Trie.

(** ** 3. Undo / redo stacks *)

Module UndoRedoManager.

Record t : Type := mk {
  undoStack : list jstring;
  redoStack : list jstring;
  maxSize : Z
}.

(** [new UndoRedoManager()] *)
Definition new : t := mk [] [] 50.

(** [saveState(text)] *)
Definition saveState (h : t) (text : jstring) : t :=
  if bool_decide (length (undoStack h) = 0%nat)
     || bool_decide (last (undoStack h) ≠ Some text)
  then
    let u := push (undoStack h) text in
    let u := if maxSize h <? Z.of_nat (length u) then shift u else u in
    mk u [] (maxSize h)
  else h.

(** [undo(currentText)]: the manager after the call and the returned
    text.  The last case is not reached, the stack being non-empty. *)
Definition undo (h : t) (currentText : jstring) : t * jstring :=
  if bool_decide (length (undoStack h) = 0%nat) then (h, currentText)
  else
    match pop (undoStack h) with
    | (u, Some previous) =>
        (mk u (push (redoStack h) currentText) (maxSize h), previous)
    | (_, None) => (h, currentText)
    end.

(** [redo(currentText)] *)
Definition redo (h : t) (currentText : jstring) : t * jstring :=
  if bool_decide (length (redoStack h) = 0%nat) then (h, currentText)
  else
    match pop (redoStack h) with
    | (r, Some next) =>
        (mk (push (undoStack h) currentText) r (maxSize h), next)
    | (_, None) => (h, currentText)
    end.

(** The calls a client can make on a manager. *)
Inductive call : Type :=
  | SaveState (text : jstring)
  | Undo (currentText : jstring)
  | Redo (currentText : jstring).

Definition run (h : t) (c : call) : t :=
  match c with
  | SaveState text => saveState h text
  | Undo currentText => (undo h currentText).1
  | Redo currentText => (redo h currentText).1
  end.

End UndoRedoManager.

(** ** 4. Boyer-Moore search *)

Module Search.

(** The loop that fills [badChar]: [badChar[pattern[i]] = i] for
    [i = 0 .. m - 1], a later index overwriting an earlier one. *)
Fixpoint fillBadChar (pattern : jstring) (i : Z) (badChar : gmap ascii Z)
  : gmap ascii Z :=
  match pattern with
  | [] => badChar
  | c :: rest => fillBadChar rest (i + 1) (<[c := i]> badChar)
  end.

(** [badChar[c]] where [c] is a character or [undefined]; no property
    is named [undefined], the names being single characters. *)
Definition lookupBad (badChar : gmap ascii Z) (c : option ascii) : option Z :=
  match c with
  | Some c => badChar !! c
  | None => None
  end.

(** [m - x]: [NaN] when [x] is [undefined]. *)
Definition minus (m : Z) (x : option Z) : option Z :=
  match x with
  | Some v => Some (m - v)
  | None => None
  end.

(** [x || d] on numbers: [NaN] and [0] are falsy. *)
Definition orElse (x : option Z) (d : Z) : Z :=
  match x with
  | Some v => if v =? 0 then d else v
  | None => d
  end.

(** The inner loop [while (j >= 0 && pattern[j] === text[s + j]) j--],
    entered with [j = k - 1]; the value of [j] when it stops. *)
Fixpoint scanBack (text pattern : jstring) (s : Z) (k : nat) : Z :=
  match k with
  | O => -1
  | S k' =>
      if bool_decide (pattern !! k' = charAt text (s + Z.of_nat k'))
      then scanBack text pattern s k'
      else Z.of_nat k'
  end.

(** One pass through the body of the outer loop: the new [s] and
    [results]. *)
Definition step (text pattern : jstring) (badChar : gmap ascii Z)
    (s : Z) (results : list Z) : Z * list Z :=
  let m := len pattern in
  let n := len text in
  let j := scanBack text pattern s (length pattern) in
  if j <? 0 then
    (s + (if s + m <? n
          then orElse (minus m (lookupBad badChar (charAt text (s + m)))) (-1)
          else 1),
     push results s)
  else
    (s + Z.max 1 (j - match lookupBad badChar (charAt text (s + j)) with
                      | Some v => v
                      | None => -1
                      end),
     results).

(** The outer loop [while (s <= n - m)], run for at most [fuel]
    passes: [None] when the passes are used up before the loop ends. *)
Fixpoint loop (fuel : nat) (text pattern : jstring) (badChar : gmap ascii Z)
    (s : Z) (results : list Z) : option (list Z) :=
  match fuel with
  | O => None
  | S fuel' =>
      if s <=? len text - len pattern then
        let '(s', results') := step text pattern badChar s results in
        loop fuel' text pattern badChar s' results'
      else Some results
  end.

(** [boyerMooreSearch(text, pattern)] *)
Definition boyerMooreSearch (fuel : nat) (text pattern : jstring)
  : option (list Z) :=
  if len pattern =? 0 then Some []
  else loop fuel text pattern (fillBadChar pattern 0 ∅) 0 [].

End Search.

(** ** The token pattern of the spell checker *)

Module Regex.

(** [[a-zA-Z]] *)
Definition isAlpha (c : ascii) : bool :=
  let n := N_of_ascii c in
  ((65 <=? n) && (n <=? 90) || (97 <=? n) && (n <=? 122))%N.

(** [\w]: a letter, a digit or the underscore; the position before the
    first character and the one after the last have no character. *)
Definition isWordChar (c : option ascii) : bool :=
  match c with
  | Some c =>
      let n := N_of_ascii c in
      (isAlpha c || (48 <=? n) && (n <=? 57) || (n =? 95))%N
  | None => false
  end.

(** [\b] between two neighbouring characters. *)
Definition boundary (before after : option ascii) : bool :=
  xorb (isWordChar before) (isWordChar after).

(** The longest run of letters at the head of [s]. *)
Fixpoint letters (s : jstring) : nat :=
  match s with
  | c :: rest => if isAlpha c then S (letters rest) else O
  | [] => O
  end.

(** An attempt of [/\b[a-zA-Z]{3,}\b/] at the head of [s], [prev] being
    the character before it: after the first [\b], the greedy
    [[a-zA-Z]{3,}] takes the longest run of letters and gives letters
    back, one at a time and down to three, until the second [\b] holds.
    The length of the match. *)
Definition matchAt (prev : option ascii) (s : jstring) : option nat :=
  if boundary prev (head s) then
    List.find (λ k, boundary (s !! (k - 1)%nat) (s !! k))
              (rev (seq 3 (letters s - 2)))
  else None.

(** [s.match(/\b[a-zA-Z]{3,}\b/g) || []] read from left to right:
    [skip] counts the characters still inside the last match, where no
    attempt starts. *)
Fixpoint matchAll (prev : option ascii) (skip : nat) (s : jstring)
  : list jstring :=
  match s with
  | [] => []
  | c :: rest =>
      match skip with
      | S skip' => matchAll (Some c) skip' rest
      | O =>
          match matchAt prev s with
          | Some n => take n s :: matchAll (Some c) (n - 1) rest
          | None => matchAll (Some c) 0 rest
          end
      end
  end.

(** [[...new Set(l)]]: the elements of [l] in the order of their first
    occurrence. *)
Definition setOf (l : list jstring) : list jstring :=
  foldl (λ set w, if bool_decide (w ∈ set) then set else set ++ [w]) [] l.

End Regex.

(** ** Routes *)

Module Server.

(** An entry of [files]. *)
Record file : Type := mkFile {
  content : Rope.Rope;
  history : UndoRedoManager.t
}.

(** The state of the module: [files] (a name that is not a property is
    absent from the map) and [suggestionTrie].  The map holds the own
    properties of [files], each with a file of its own, under the
    prototype the object is created with: the two agree on every name
    that is not the name of a property every object inherits, and as
    long as no request has used such a name.  The properties of the
    file routes that depend on which names are present are stated for
    such names and such states. *)
Record state : Type := mkState {
  files : gmap jstring file;
  suggestionTrie : Trie.Trie
}.

(** What a route sends back. *)
Inductive response : Type :=
  | NotFound (message : jstring)
  | Success
  | Content (content : jstring)
  | Indices (indices : option (list Z))
  | Suggestions (suggestions : list jstring)
  | WrongWords (wrongWords : list jstring).

Definition newline : ascii := ascii_of_N 10.

(** The state once the module has been loaded. *)
Definition initial : state :=
  mkState
    {[ js "example.txt" :=
         mkFile (Rope.newRope (js "Welcome to the Editor." ++ [newline]
                                 ++ js "Start typing to see the magic."))
                UndoRedoManager.new ]}
    Trie.suggestionTrie.

(** [\s] on the Latin-1 range: tab, line feed, vertical tab, form feed,
    carriage return, space and no-break space. *)
Definition isSpace (c : ascii) : bool :=
  let n := N_of_ascii c in
  ((9 <=? n) && (n <=? 13) || (n =? 32) || (n =? 160))%N.

(** The class [[\s\n\.\,\!\?]]. *)
Definition isSeparator (c : ascii) : bool :=
  let n := N_of_ascii c in
  (isSpace c || (n =? 46) || (n =? 44) || (n =? 33) || (n =? 63))%N.

(** [text.split(/[\s\n\.\,\!\?]+/)] read from left to right: [piece]
    is the piece being read and [inRun] says that the last character
    was a separator.  A run of separators ends the piece before it, the
    empty one at the start included; what is left at the end is the
    last piece, empty after a trailing run. *)
Fixpoint splitFrom (piece : jstring) (inRun : bool) (text : jstring)
  : list jstring :=
  match text with
  | [] => [piece]
  | c :: rest =>
      if isSeparator c then
        if inRun then splitFrom [] true rest
        else piece :: splitFrom [] true rest
      else splitFrom (piece ++ [c]) false rest
  end.

Definition split (text : jstring) : list jstring := splitFrom [] false text.

(** The learning step of the update route. *)
Definition learn (trie : Trie.Trie) (text : jstring) : Trie.Trie :=
  foldl (λ trie w, if 2 <? len w then Trie.insert trie (toLowerCase w) else trie)
        trie (split text).

(** [POST /api/file/:name/update] *)
Definition postUpdate (st : state) (name text : jstring) : state * response :=
  match files st !! name with
  | None => (st, NotFound (js "Err"))
  | Some f =>
      let currentStr := Rope.toString (content f) in
      if bool_decide (currentStr ≠ text) then
        let f' := mkFile (Rope.newRope text)
                         (UndoRedoManager.saveState (history f) currentStr) in
        (mkState (<[name := f']> (files st)) (learn (suggestionTrie st) text),
         Success)
      else (st, Success)
  end.

(** The same route in the earlier revision, which has no comparison of
    the two texts. *)
Definition postUpdate_earlier (st : state) (name text : jstring) : state * response :=
  match files st !! name with
  | None => (st, NotFound (js "File not found"))
  | Some f =>
      let currentStr := Rope.toString (content f) in
      let f' := mkFile (Rope.newRope text)
                       (UndoRedoManager.saveState (history f) currentStr) in
      (mkState (<[name := f']> (files st)) (learn (suggestionTrie st) text),
       Success)
  end.

(** [POST /api/file/:name/undo] *)
Definition postUndo (st : state) (name : jstring) : state * response :=
  match files st !! name with
  | None => (st, NotFound (js "Err"))
  | Some f =>
      let '(h, prev) := UndoRedoManager.undo (history f) (Rope.toString (content f)) in
      (mkState (<[name := mkFile (Rope.newRope prev) h]> (files st))
               (suggestionTrie st),
       Content prev)
  end.

(** [POST /api/file/:name/redo] *)
Definition postRedo (st : state) (name : jstring) : state * response :=
  match files st !! name with
  | None => (st, NotFound (js "Err"))
  | Some f =>
      let '(h, next) := UndoRedoManager.redo (history f) (Rope.toString (content f)) in
      (mkState (<[name := mkFile (Rope.newRope next) h]> (files st))
               (suggestionTrie st),
       Content next)
  end.

(** [POST /api/search]; the loop is given [fuel] passes. *)
Definition postSearch (fuel : nat) (text pattern : jstring) : response :=
  Indices (Search.boyerMooreSearch fuel text pattern).

(** [POST /api/autocomplete] *)
Definition postAutocomplete (st : state) (prefix : jstring) : response :=
  Suggestions (Trie.find Trie.cap (suggestionTrie st) prefix).

(** [POST /api/check-spelling] *)
Definition postCheckSpelling (st : state) (text : jstring) : response :=
  let words := Regex.matchAll None 0 text in
  let wrongWords :=
    filter (λ w, Trie.contains (suggestionTrie st) w = false) words in
  WrongWords (Regex.setOf wrongWords).

(** [GET /api/file/:name] *)
Definition getFile (st : state) (name : jstring) : response :=
  match files st !! name with
  | Some f => Content (Rope.toString (content f))
  | None => NotFound (js "File not found")
  end.

(** [POST /api/files]: a rename when [oldName] is given, is not the
    empty string and names a file; the creation of an empty file
    otherwise. *)
Definition postFiles (st : state) (name : jstring) (oldName : option jstring)
  : state * response :=
  let renamed :=
    match oldName with
    | Some old =>
        if bool_decide (old ≠ []) then
          match files st !! old with
          | Some f => Some (base.delete old (<[name := f]> (files st)))
          | None => None
          end
        else None
    | None => None
    end in
  match renamed with
  | Some fs => (mkState fs (suggestionTrie st), Success)
  | None =>
      (mkState (<[name := mkFile (Rope.newRope []) UndoRedoManager.new]> (files st))
               (suggestionTrie st),
       Success)
  end.

(** [DELETE /api/file/:name] *)
Definition deleteFile (st : state) (name : jstring) : state * response :=
  (mkState (base.delete name (files st)) (suggestionTrie st), Success).

(** The requests of the routes above, with the parameters and the
    fields of the body as strings: a body whose [text] is [null] or
    not a string is no request of this type.  [GET /api/files] answers
    with the names in the order of the properties of [files], which
    the map does not keep, and is left out. *)
Inductive request : Type :=
  | GetFile (name : jstring)
  | PostFiles (name : jstring) (oldName : option jstring)
  | DeleteFile (name : jstring)
  | PostUpdate (name text : jstring)
  | PostUndo (name : jstring)
  | PostRedo (name : jstring)
  | PostSearch (fuel : nat) (text pattern : jstring)
  | PostAutocomplete (prefix : jstring)
  | PostCheckSpelling (text : jstring).

(** The server on one request. *)
Definition handle (st : state) (r : request) : state * response :=
  match r with
  | GetFile name => (st, getFile st name)
  | PostFiles name oldName => postFiles st name oldName
  | DeleteFile name => deleteFile st name
  | PostUpdate name text => postUpdate st name text
  | PostUndo name => postUndo st name
  | PostRedo name => postRedo st name
  | PostSearch fuel text pattern => (st, postSearch fuel text pattern)
  | PostAutocomplete prefix => (st, postAutocomplete st prefix)
  | PostCheckSpelling text => (st, postCheckSpelling st text)
  end.

(** The state after a sequence of requests. *)
Definition serve (st : state) (rs : list request) : state :=
  foldl (λ st r, (handle st r).1) st rs.

End Server.

(** ** Notions used in the statements *)

Section Notions.
Import UndoRedoManager Trie.

(** The manager after a sequence of [saveState] calls. *)
Definition saveAll (h : t) (texts : list jstring) : t := foldl saveState h texts.

(** The two stacks never hold more than [maxSize] snapshots between
    them, and [maxSize] stays 50. *)
Definition bounded (h : t) : Prop :=
  maxSize h = 50 ∧ (length (undoStack h) + length (redoStack h) ≤ 50)%nat.

(** The property names of an object are pairwise different, in every
    node of the trie. *)
#[local] Unset Elimination Schemes.
Inductive wf : TrieNode → Prop :=
  wf_node children isEndOfWord :
    NoDup children.*1 → Forall (λ p, wf p.2) children →
    wf (mkTrieNode children isEndOfWord).
#[local] Set Elimination Schemes.

(** [w] begins with [prefix], letter case apart. *)
Definition startsWithCI (prefix w : jstring) : Prop :=
  toLowerCase prefix `prefix_of` toLowerCase w.

(** [pattern] occurs in [text] at offset [i]:
    [text[i : i + len pattern] = pattern]. *)
Definition occursAt (text pattern : jstring) (i : Z) : Prop :=
  take (length pattern) (drop (Z.to_nat i) text) = pattern.

#[global] Instance occursAt_dec text pattern i : Decision (occursAt text pattern i) :=
  decide (take (length pattern) (drop (Z.to_nat i) text) = pattern).

(** The offsets below [s] at which [pattern] occurs in [text], in
    ascending order. *)
Definition occurrencesBelow (text pattern : jstring) (s : Z) : list Z :=
  filter (occursAt text pattern) (seqZ 0 s).

(** The offsets at which [pattern] occurs in [text], in ascending
    order; the last place where it fits is [len text - len pattern]. *)
Definition occurrences (text pattern : jstring) : list Z :=
  occurrencesBelow text pattern (len text - len pattern + 1).

(** An occurrence at [s] that is followed, inside the text, by a
    character that is not in the pattern. *)
Definition stuckAt (text pattern : jstring) (s : Z) : Prop :=
  0 ≤ s ∧ occursAt text pattern s
  ∧ ∃ c, text !! Z.to_nat (s + len pattern) = Some c ∧ c ∉ pattern.

(** The texts of a file in the order of its history: the snapshots
    that can be undone, the current text, and the snapshots that can be
    redone, the next one first. *)
Definition timeline (f : Server.file) : list jstring :=
  undoStack (Server.history f) ++ [Rope.toString (Server.content f)]
    ++ reverse (redoStack (Server.history f)).

(** No two neighbours of the list are equal. *)
Fixpoint noRepeat (l : list jstring) : Prop :=
  match l with
  | x :: l' => match l' with y :: _ => x ≠ y | [] => True end ∧ noRepeat l'
  | [] => True
  end.

(** What the routes keep true of a file. *)
Definition fileOk (f : Server.file) : Prop :=
  bounded (Server.history f) ∧ noRepeat (timeline f).

(** What the routes keep true of the state: every file is as above. *)
Definition stateOk (st : Server.state) : Prop :=
  ∀ name f, Server.files st !! name = Some f → fileOk f.

(** The names of the files a request is about. *)
Definition namesOf (r : Server.request) : list jstring :=
  match r with
  | Server.PostFiles name (Some old) => [name; old]
  | Server.PostFiles name None => [name]
  | Server.DeleteFile name | Server.PostUpdate name _
  | Server.PostUndo name | Server.PostRedo name => [name]
  | _ => []
  end.

(** A whole word of the text: a run of three or more letters that
    neither follows nor precedes a letter, a digit or an underscore. *)
Definition wholeWordOf (text w : jstring) : Prop :=
  (3 ≤ length w)%nat ∧ Forall (λ c, Regex.isAlpha c = true) w
  ∧ ∃ before after, text = before ++ w ++ after
      ∧ Regex.isWordChar (last before) = false
      ∧ Regex.isWordChar (head after) = false.

(** Following the words of the specification: a run of three or more
    alphabetic characters of the text, taken as far as the letters
    go. *)
Definition letterRunOf (text w : jstring) : Prop :=
  (3 ≤ length w)%nat ∧ Forall (λ c, Regex.isAlpha c = true) w
  ∧ ∃ before after, text = before ++ w ++ after
      ∧ (∀ c, last before = Some c → Regex.isAlpha c = false)
      ∧ (∀ c, head after = Some c → Regex.isAlpha c = false).

(** The character before the rest of a text: the last of what has
    been read, or [prev] when nothing has. *)
Definition charBefore (prev : option ascii) (before : jstring) : option ascii :=
  match last before with Some c => Some c | None => prev end.

(** The names of the properties every object inherits from
    [Object.prototype]: under such a name [files[name]] is not a lookup
    among the files, and [files["__proto__"] = f] adds no file. *)
Definition inheritedNames : list jstring := map js
  [ "constructor"; "__proto__"; "hasOwnProperty"; "isPrototypeOf";
    "propertyIsEnumerable"; "toLocaleString"; "toString"; "valueOf";
    "__defineGetter__"; "__defineSetter__"; "__lookupGetter__";
    "__lookupSetter__" ]%string.

(** A request all of whose file names are names of no inherited
    property. *)
Definition ordinaryRequest (r : Server.request) : Prop :=
  Forall (λ name, name ∉ inheritedNames) (namesOf r).

(** A state the server reaches, from the one it is loaded with, by
    such requests: [files] still has the prototype it was created
    with, and each of its properties holds a file of its own. *)
Definition ordinaryState (st : Server.state) : Prop :=
  ∃ rs, Forall ordinaryRequest rs ∧ st = Server.serve Server.initial rs.

End Notions.

(** * Its properties *)

(** ** Arrays *)

Section ArrayFacts.
Context {A : Type}.

Lemma pop_push (l : list A) x : pop (push l x) = (l, Some x).
Proof. unfold pop, push. by rewrite removelast_last, last_snoc. Qed.

Lemma snoc_cases (l : list A) : l = [] ∨ ∃ l' x, l = l' ++ [x].
Proof. destruct l as [|a l] using rev_ind; eauto. Qed.

End ArrayFacts.

(** ** Facts about slices *)

Lemma clampIndex_range n i : 0 ≤ n → 0 ≤ clampIndex n i ≤ n.
Proof. unfold clampIndex. destruct (Z.ltb_spec i 0); lia. Qed.

Lemma clampIndex_valid n i : 0 ≤ i ≤ n → clampIndex n i = i.
Proof. unfold clampIndex. destruct (Z.ltb_spec i 0); lia. Qed.

Lemma slice_prefix s i :
  slice s 0 i = take (Z.to_nat (clampIndex (len s) i)) s.
Proof.
  unfold slice.
  assert (Hn : 0 ≤ len s) by (unfold len; lia).
  rewrite (clampIndex_valid (len s) 0) by lia.
  pose proof (clampIndex_range (len s) i Hn).
  simpl. f_equal. lia.
Qed.

Lemma sliceFrom_suffix s i :
  sliceFrom s i = drop (Z.to_nat (clampIndex (len s) i)) s.
Proof.
  unfold sliceFrom, slice.
  assert (Hn : 0 ≤ len s) by (unfold len; lia).
  rewrite (clampIndex_valid (len s) (len s)) by lia.
  pose proof (clampIndex_range (len s) i Hn).
  apply take_ge. rewrite length_drop. unfold len in *. lia.
Qed.

Lemma toString_newRope s : Rope.toString (Rope.newRope s) = s.
Proof. reflexivity. Qed.

(** ** Rope: edits inside the bounds *)

(** C3. For a buffer with text [t], [insert(offset, s)] with
    [0 <= offset <= len t] leaves the text [t[0:offset] + s + t[offset:]]
    and returns it; [delete(start, end)] with
    [0 <= start <= end <= len t] leaves [t[0:start] + t[end:]] and
    returns it. *)
Theorem rope_insert_delete_valid (b : Rope.Rope) (offset start end_ : Z) (s : jstring) :
  0 ≤ offset ≤ len (Rope.toString b) →
  0 ≤ start ≤ end_ ∧ end_ ≤ len (Rope.toString b) →
  let t := Rope.toString b in
  (Rope.toString (Rope.insert b offset s).1
     = take (Z.to_nat offset) t ++ s ++ drop (Z.to_nat offset) t
   ∧ (Rope.insert b offset s).2 = Rope.toString (Rope.insert b offset s).1)
  ∧ (Rope.toString (Rope.delete b start end_).1
     = take (Z.to_nat start) t ++ drop (Z.to_nat end_) t
   ∧ (Rope.delete b start end_).2 = Rope.toString (Rope.delete b start end_).1).
Proof.
  intros Hoff [Hse He] t. unfold Rope.insert, Rope.delete.
  fold t in Hoff, He |- *. clearbody t. cbn [fst snd]. fold (Rope.newRope (slice t 0 offset ++ s ++ sliceFrom t offset)).
  fold (Rope.newRope (slice t 0 start ++ sliceFrom t end_)).
  rewrite !toString_newRope, !slice_prefix, !sliceFrom_suffix.
  rewrite !clampIndex_valid by lia. auto.
Qed.

Lemma rope_insert_delete_valid_witness :
  Rope.toString (Rope.insert (Rope.newRope (js "Welcome to the Editor.")) 8 (js "back ")).1
    = js "Welcome back to the Editor."
  ∧ Rope.toString (Rope.delete (Rope.newRope (js "Welcome back to the Editor.")) 8 13).1
    = js "Welcome to the Editor.".
Proof.
  split.
  - apply (rope_insert_delete_valid (Rope.newRope (js "Welcome to the Editor."))
             8 0 0 (js "back ")); vm_compute; intuition congruence.
  - apply (rope_insert_delete_valid (Rope.newRope (js "Welcome back to the Editor."))
             0 8 13 []); vm_compute; intuition congruence.
Defined.

(** ** Rope: edits outside the bounds *)

Lemma length_insert_text (b : Rope.Rope) (index : Z) (s : jstring) :
  length (Rope.toString (Rope.insert b index s).1)
    = (length (Rope.toString b) + length s)%nat.
Proof.
  unfold Rope.insert. cbn [fst].
  fold (Rope.newRope (slice (Rope.toString b) 0 index ++ s
                        ++ sliceFrom (Rope.toString b) index)).
  rewrite toString_newRope, slice_prefix, sliceFrom_suffix.
  pose proof (take_drop (Z.to_nat (clampIndex (len (Rope.toString b)) index))
                (Rope.toString b)) as E.
  apply (f_equal length) in E. rewrite !length_app in *. lia.
Qed.

(** C4, as stated, fails: an insert past the end and a delete with
    [start > end] return normally and leave a different text. *)
Lemma rope_out_of_range_changes_text :
  let b := Rope.newRope (js "ab") in
  len (Rope.toString b) < 5
  ∧ Rope.insert b 5 (js "x") = (Rope.newRope (js "abx"), js "abx")
  ∧ Rope.toString (Rope.insert b 5 (js "x")).1 ≠ Rope.toString b
  ∧ Rope.insert b (-1) (js "x") = (Rope.newRope (js "axb"), js "axb")
  ∧ Rope.delete b 1 0 = (Rope.newRope (js "aab"), js "aab")
  ∧ Rope.toString (Rope.delete b 1 0).1 ≠ Rope.toString b.
Proof. vm_compute. repeat split; congruence. Qed.

(** C4, amended. [insert] and [delete] have no error outcome. With an
    offset outside [0 .. len t] the call goes through with the offset
    clamped as [slice] clamps it (a negative offset counts from the
    end, then the result is brought into [0 .. len t]): [insert] leaves
    and returns [t[0:k] + s + t[k:]] for the clamped offset [k], which
    is [t + s] when [offset > len t], and the text is changed whenever
    [s] is not empty; [delete] leaves and returns [t[0:k1] + t[k2:]] for
    the clamped [start] and [end]. *)
Theorem rope_out_of_range_clamped (b : Rope.Rope) (offset start end_ : Z) (s : jstring) :
  offset < 0 ∨ len (Rope.toString b) < offset →
  ¬ (0 ≤ start ≤ end_ ∧ end_ ≤ len (Rope.toString b)) →
  let t := Rope.toString b in
  let k := Z.to_nat (clampIndex (len t) offset) in
  let k1 := Z.to_nat (clampIndex (len t) start) in
  let k2 := Z.to_nat (clampIndex (len t) end_) in
  (Rope.insert b offset s).2 = take k t ++ s ++ drop k t
  ∧ Rope.toString (Rope.insert b offset s).1 = (Rope.insert b offset s).2
  ∧ (len t < offset → (Rope.insert b offset s).2 = t ++ s)
  ∧ (s ≠ [] → Rope.toString (Rope.insert b offset s).1 ≠ t)
  ∧ (Rope.delete b start end_).2 = take k1 t ++ drop k2 t
  ∧ Rope.toString (Rope.delete b start end_).1 = (Rope.delete b start end_).2.
Proof.
  intros _ _ t k k1 k2.
  assert (Hins : (Rope.insert b offset s).2 = take k t ++ s ++ drop k t).
  { unfold Rope.insert. cbn [snd]. fold t.
    rewrite slice_prefix, sliceFrom_suffix. reflexivity. }
  repeat split.
  - exact Hins.
  - intros Hgt. rewrite Hins. subst k.
    unfold clampIndex. destruct (Z.ltb_spec offset 0).
    + unfold len in *. lia.
    + rewrite Z.min_r by lia. unfold len. rewrite Nat2Z.id.
      rewrite take_ge, drop_ge by lia. rewrite app_nil_r. reflexivity.
  - intros Hs Heq. pose proof (length_insert_text b offset s) as L.
    fold t in L. rewrite Heq in L. destruct s; [congruence | simpl in L; lia].
  - unfold Rope.delete. cbn [snd]. fold t.
    rewrite slice_prefix, sliceFrom_suffix. reflexivity.
Qed.

Lemma rope_out_of_range_clamped_witness :
  (Rope.insert (Rope.newRope (js "ab")) 5 (js "x")).2 = js "ab" ++ js "x".
Proof.
  apply (rope_out_of_range_clamped (Rope.newRope (js "ab")) 5 1 0 (js "x")).
  - right. vm_compute. reflexivity.
  - vm_compute. intros [[_ H] _]. apply H. reflexivity.
  - vm_compute. reflexivity.
Defined.

Section HistoryFacts.
Import UndoRedoManager.

Lemma saveState_same h text :
  last (undoStack h) = Some text → saveState h text = h.
Proof.
  intros E. unfold saveState.
  rewrite (bool_decide_eq_false_2 (length (undoStack h) = 0%nat)).
  - rewrite bool_decide_eq_false_2; [done | by intros []].
  - destruct (undoStack h); [discriminate | done].
Qed.

Lemma saveState_push h text :
  last (undoStack h) ≠ Some text →
  saveState h text =
    mk (if maxSize h <? Z.of_nat (length (undoStack h ++ [text]))
        then tail (undoStack h ++ [text]) else undoStack h ++ [text])
       [] (maxSize h).
Proof.
  intros E. unfold saveState.
  rewrite (bool_decide_eq_true_2 (last (undoStack h) ≠ Some text)) by done.
  by rewrite orb_true_r.
Qed.

Lemma maxSize_saveState h text : maxSize (saveState h text) = maxSize h.
Proof. unfold saveState. by case_match. Qed.

Lemma undo_empty h c : undoStack h = [] → undo h c = (h, c).
Proof. intros E. unfold undo. by rewrite E. Qed.

Lemma undo_snoc h c u p :
  undoStack h = u ++ [p] → undo h c = (mk u (redoStack h ++ [c]) (maxSize h), p).
Proof.
  intros E. unfold undo. rewrite E.
  rewrite bool_decide_eq_false_2 by (rewrite length_app; simpl; lia).
  fold (push u p). by rewrite pop_push.
Qed.

Lemma redo_empty h c : redoStack h = [] → redo h c = (h, c).
Proof. intros E. unfold redo. by rewrite E. Qed.

Lemma redo_snoc h c r n :
  redoStack h = r ++ [n] → redo h c = (mk (undoStack h ++ [c]) r (maxSize h), n).
Proof.
  intros E. unfold redo. rewrite E.
  rewrite bool_decide_eq_false_2 by (rewrite length_app; simpl; lia).
  fold (push r n). by rewrite pop_push.
Qed.

Lemma maxSize_saveAll h texts : maxSize (saveAll h texts) = maxSize h.
Proof.
  revert h. induction texts as [|x texts IH]; intros h; [done|].
  simpl. unfold saveAll in IH. by rewrite IH, maxSize_saveState.
Qed.

Lemma last_drop_lt {A} (l : list A) n : (n < length l)%nat → last (drop n l) = last l.
Proof.
  intros H. rewrite <- (take_drop n l) at 2. rewrite last_app.
  destruct (last (drop n l)) eqn:E; [done|].
  apply last_None in E. apply (f_equal length) in E.
  rewrite length_drop in E. simpl in E. lia.
Qed.

(** Snapshots that differ from one another are all pushed, and the
    stack keeps the 50 most recent of them. *)
Lemma undoStack_saveAll texts :
  NoDup texts →
  undoStack (saveAll new texts) = drop (length texts - 50) texts
  ∧ redoStack (saveAll new texts) = [].
Proof.
  induction texts as [|x texts IH] using rev_ind; intros ND; [done|].
  apply NoDup_app in ND as (ND & Hx & _).
  destruct (IH ND) as [IHu IHr].
  unfold saveAll in *. rewrite foldl_snoc.
  assert (Hlast : last (undoStack (foldl saveState new texts)) ≠ Some x).
  { rewrite IHu. intros E. apply last_Some_elem_of in E.
    apply (Hx x); [| constructor]. by apply (subseteq_drop _ _ _ E). }
  rewrite (saveState_push _ _ Hlast).
  pose proof (maxSize_saveAll new texts) as Hm. unfold saveAll in Hm.
  rewrite Hm, IHu. cbn [undoStack redoStack maxSize new]. split; [|done].
  rewrite !length_app, length_drop. simpl.
  destruct (Z.ltb_spec 50 (Z.of_nat (length texts - (length texts - 50) + 1))).
  - replace (length texts + 1 - 50)%nat with (S (length texts - 50)) by lia.
    rewrite drop_app_le by lia.
    destruct (drop (length texts - 50) texts) as [|y l] eqn:E.
    + apply (f_equal length) in E. rewrite length_drop in E. simpl in E. lia.
    + simpl. f_equal.
      change l with (drop 1 (y :: l)). rewrite <- E, drop_drop. f_equal. lia.
  - replace (length texts + 1 - 50)%nat with 0%nat by lia.
    replace (length texts - 50)%nat with 0%nat by lia. done.
Qed.

(** C6. [saveState(t)] is a no-op when [t] is the top of the undo
    stack; otherwise it pushes [t], clears the redo stack, and drops
    the oldest entry when the push takes the stack past 50; so after
    51 distinct snapshots saved on a fresh manager the stack holds the
    last 50 and the first one is gone. *)
Theorem saveState_spec (h : t) (text : jstring) (texts : list jstring) :
  maxSize h = 50 →
  (last (undoStack h) = Some text → saveState h text = h)
  ∧ (last (undoStack h) ≠ Some text →
       redoStack (saveState h text) = []
       ∧ last (undoStack (saveState h text)) = Some text
       ∧ ((length (undoStack h) < 50)%nat →
            undoStack (saveState h text) = undoStack h ++ [text])
       ∧ ((50 ≤ length (undoStack h))%nat →
            undoStack (saveState h text) = tail (undoStack h) ++ [text]))
  ∧ (NoDup texts → length texts = 51%nat →
       undoStack (saveAll new texts) = tail texts
       ∧ length (undoStack (saveAll new texts)) = 50%nat
       ∧ ∀ first, head texts = Some first → first ∉ undoStack (saveAll new texts)).
Proof.
  intros Hmax. split; [apply saveState_same|]. split.
  - intros Hne. rewrite (saveState_push _ _ Hne). cbn [undoStack redoStack].
    rewrite Hmax, length_app. simpl. split; [done|].
    destruct (Z.ltb_spec 50 (Z.of_nat (length (undoStack h) + 1))).
    + destruct (undoStack h) as [|a l]; [simpl in *; lia|]. simpl.
      split; [apply last_snoc|]. split; [intros; simpl in *; lia | done].
    + split; [apply last_snoc|]. split; [done | intros; lia].
  - intros ND Hlen. destruct (undoStack_saveAll texts ND) as [-> _].
    rewrite Hlen. change (51 - 50)%nat with 1%nat.
    destruct texts as [|a l]; [done|]. simpl. rewrite drop_0.
    split; [done|]. split; [simpl in Hlen; lia|].
    intros first [= <-]. by apply NoDup_cons in ND as [? _].
Qed.

Lemma saveState_spec_witness :
  let texts := map (λ n, [ascii_of_nat n]) (seq 0 51) in
  undoStack (saveAll new texts) = tail texts.
Proof.
  intros texts. apply (saveState_spec new [] texts).
  - reflexivity.
  - apply (bool_decide_unpack _). vm_compute. reflexivity.
  - vm_compute. reflexivity.
Defined.

(** C7, as stated, fails on the round trip: with an empty undo stack
    and a non-empty redo stack (reached by one save and one undo),
    [undo] does nothing and the [redo] after it returns another text
    and moves an entry between the stacks. *)
Lemma undo_then_redo_not_restoring :
  let h := run (run new (SaveState (js "a"))) (Undo (js "b")) in
  let c := js "a" in
  h = mk [] [js "b"] 50
  ∧ undo h c = (h, c)
  ∧ redo (undo h c).1 (undo h c).2 = (mk [js "a"] [] 50, js "b")
  ∧ (redo (undo h c).1 (undo h c).2).2 ≠ c
  ∧ (redo (undo h c).1 (undo h c).2).1 ≠ h.
Proof. vm_compute. repeat split; congruence. Qed.

(** C7, amended. [undo(c)] on an empty undo stack returns [c] and
    changes nothing; otherwise it pops the last snapshot, pushes [c] on
    the redo stack and returns the snapshot; [redo(c)] is symmetric;
    and when the undo stack is not empty (or the redo stack is empty),
    [undo] followed by [redo] on the returned text gives back the text
    and both stacks. *)
Theorem undo_redo_spec (h : t) (c : jstring) :
  (undoStack h = [] → undo h c = (h, c))
  ∧ (∀ u p, undoStack h = u ++ [p] →
       undo h c = (mk u (redoStack h ++ [c]) (maxSize h), p))
  ∧ (redoStack h = [] → redo h c = (h, c))
  ∧ (∀ r n, redoStack h = r ++ [n] →
       redo h c = (mk (undoStack h ++ [c]) r (maxSize h), n))
  ∧ (undoStack h ≠ [] ∨ redoStack h = [] →
       redo (undo h c).1 (undo h c).2 = (h, c)).
Proof.
  split; [apply undo_empty|]. split; [apply undo_snoc|].
  split; [apply redo_empty|]. split; [apply redo_snoc|].
  intros Hcase. destruct (snoc_cases (undoStack h)) as [E | (u & p & E)].
  - destruct Hcase as [|Hr]; [done|].
    rewrite (undo_empty _ _ E). by apply redo_empty.
  - rewrite (undo_snoc _ _ _ _ E). cbn [fst snd].
    rewrite (redo_snoc _ p (redoStack h) c) by done. cbn [undoStack maxSize].
    rewrite <- E. by destruct h.
Qed.

Lemma undo_redo_spec_witness :
  let h := mk [js "Welcome to the Editor."] [] 50 in
  undo h (js "Welcome back to the Editor.")
    = (mk [] [js "Welcome back to the Editor."] 50, js "Welcome to the Editor.")
  ∧ redo (mk [] [js "Welcome back to the Editor."] 50) (js "Welcome to the Editor.")
    = (h, js "Welcome back to the Editor.").
Proof.
  intros h. split.
  - apply (undo_redo_spec h (js "Welcome back to the Editor.")). reflexivity.
  - apply (undo_redo_spec h (js "Welcome back to the Editor.")).
    left. vm_compute. congruence.
Defined.

Lemma bounded_new : bounded new.
Proof. split; [done | simpl; lia]. Qed.

Lemma bounded_run h c : bounded h → bounded (run h c).
Proof.
  intros [Hm Hb]. destruct c as [text | c | c]; simpl.
  - destruct (decide (last (undoStack h) = Some text)) as [E | E].
    + by rewrite saveState_same.
    + rewrite saveState_push by done. split; [done|]. cbn [undoStack redoStack].
      rewrite Hm, length_app. simpl.
      destruct (Z.ltb_spec 50 (Z.of_nat (length (undoStack h) + 1))).
      * revert Hb. destruct (undoStack h); simpl; [lia|].
        rewrite length_app. simpl. lia.
      * rewrite length_app. simpl. lia.
  - destruct (snoc_cases (undoStack h)) as [E | (u & p & E)].
    + by rewrite undo_empty.
    + rewrite (undo_snoc _ _ _ _ E). split; [done|]. cbn [fst undoStack redoStack].
      rewrite E in Hb. rewrite !length_app in *. simpl in *. lia.
  - destruct (snoc_cases (redoStack h)) as [E | (r & n & E)].
    + by rewrite redo_empty.
    + rewrite (redo_snoc _ _ _ _ E). split; [done|]. cbn [fst undoStack redoStack].
      rewrite E in Hb. rewrite !length_app in *. simpl in *. lia.
Qed.

(** C8. After any sequence of [saveState], [undo] and [redo] calls on
    a fresh manager, neither stack is deeper than 50. *)
Theorem stacks_bounded (calls : list call) :
  let h := foldl run new calls in
  (length (undoStack h) ≤ 50)%nat ∧ (length (redoStack h) ≤ 50)%nat.
Proof.
  assert (H : bounded (foldl run new calls)).
  { induction calls as [|c calls IH] using rev_ind; [apply bounded_new|].
    rewrite foldl_snoc. by apply bounded_run. }
  destruct H as [_ H]. simpl. lia.
Qed.

End HistoryFacts.

(** ** Facts about objects and tries *)

Section ObjectFacts.
Context {V : Type}.
Implicit Types (o : list (ascii * V)) (k : ascii) (v : V).

Lemma getProp_app_None o o' k :
  getProp o k = None → getProp (o ++ o') k = getProp o' k.
Proof.
  induction o as [|[k' v'] o IH]; simpl; [done|].
  destruct (decide (k' = k)); [done | exact IH].
Qed.

Lemma getProp_app_Some o o' k v :
  getProp o k = Some v → getProp (o ++ o') k = Some v.
Proof.
  induction o as [|[k' v'] o IH]; simpl; [done|].
  destruct (decide (k' = k)); [done | exact IH].
Qed.

Lemma getProp_addIndexProp o k v k' :
  getProp o k = None →
  getProp (addIndexProp o k v) k' = if decide (k = k') then Some v else getProp o k'.
Proof.
  induction o as [|[k0 v0] o IH]; simpl; intros Hnone.
  - by destruct (decide (k = k')).
  - destruct (decide (k0 = k)) as [|Hne]; [done|].
    destruct (isIndexKey k0 && (N_of_ascii k0 <? N_of_ascii k)%N); simpl.
    + rewrite (IH Hnone).
      destruct (decide (k0 = k')), (decide (k = k')); congruence.
    + by destruct (decide (k = k')).
Qed.

Lemma getProp_addProp o k v k' :
  getProp o k = None →
  getProp (addProp o k v) k' = if decide (k = k') then Some v else getProp o k'.
Proof.
  intros Hnone. unfold addProp. destruct (isIndexKey k).
  - by apply getProp_addIndexProp.
  - destruct (getProp o k') as [v'|] eqn:E.
    + rewrite (getProp_app_Some _ _ _ _ E).
      destruct (decide (k = k')); [congruence | done].
    + rewrite (getProp_app_None _ _ _ E). simpl.
      by destruct (decide (k = k')).
Qed.

Lemma getProp_replaceProp o k v k' :
  is_Some (getProp o k) →
  getProp (replaceProp o k v) k' = if decide (k = k') then Some v else getProp o k'.
Proof.
  induction o as [|[k0 v0] o IH]; simpl; intros Hsome.
  - by destruct Hsome.
  - destruct (decide (k0 = k)) as [->|Hne]; simpl.
    + by destruct (decide (k = k')).
    + rewrite (IH Hsome).
      destruct (decide (k0 = k')), (decide (k = k')); congruence.
Qed.

Lemma getProp_assignProp o k v k' :
  getProp (assignProp o k v) k' = if decide (k = k') then Some v else getProp o k'.
Proof.
  unfold assignProp. destruct (getProp o k) eqn:E.
  - apply getProp_replaceProp. by rewrite E.
  - by apply getProp_addProp.
Qed.
End ObjectFacts.

Section TrieFacts.
Import Trie.

(** Induction on a node, with the hypothesis on every child. *)
Lemma TrieNode_ind (P : TrieNode → Prop) :
  (∀ children isEndOfWord,
      Forall (λ p, P p.2) children → P (mkTrieNode children isEndOfWord)) →
  ∀ node, P node.
Proof.
  intros step. fix IH 1. intros [children isEndOfWord]. apply step.
  induction children as [|[k child] children IHc]; constructor; [apply IH | exact IHc].
Qed.

Lemma lowerChar_idemp c : lowerChar (lowerChar c) = lowerChar c.
Proof. destruct c as [[] [] [] [] [] [] [] []]; reflexivity. Qed.

Lemma toLowerCase_idemp s : toLowerCase (toLowerCase s) = toLowerCase s.
Proof.
  unfold toLowerCase. rewrite <- list_fmap_compose.
  apply list_fmap_ext. intros _ c _. apply lowerChar_idemp.
Qed.

Lemma toLowerCase_app s1 s2 :
  toLowerCase (s1 ++ s2) = toLowerCase s1 ++ toLowerCase s2.
Proof. apply fmap_app. Qed.

Lemma containsFrom_new word : containsFrom newTrieNode word = false.
Proof. by destruct word. Qed.

(** A word is found after an insertion exactly when it was found
    before or is the inserted word. *)
Lemma containsFrom_insertFrom word : ∀ node path,
  containsFrom (insertFrom node word) path
    = containsFrom node path || bool_decide (path = word).
Proof.
  induction word as [|char rest IH]; intros node path.
  - destruct path as [|c path]; cbn [containsFrom insertFrom children isEndOfWord].
    + by rewrite orb_true_r.
    + case_bool_decide; [done|]. by rewrite orb_false_r.
  - destruct path as [|c path]; cbn [containsFrom insertFrom children isEndOfWord].
    + case_bool_decide; [done|]. by rewrite orb_false_r.
    + rewrite getProp_assignProp. destruct (decide (char = c)) as [->|Hne].
      * rewrite IH. destruct (getProp (children node) c) as [child|].
        -- f_equal. apply bool_decide_ext. split; congruence.
        -- rewrite containsFrom_new. cbn [orb].
           apply bool_decide_ext. split; congruence.
      * case_bool_decide; [congruence|]. by rewrite orb_false_r.
Qed.

Lemma contains_insert t word w :
  contains (insert t word) w
    = contains t w || bool_decide (toLowerCase w = toLowerCase word).
Proof. unfold contains, insert. simpl. apply containsFrom_insertFrom. Qed.

(** The vocabulary of a trie built by insertions: a word is contained
    exactly when it is, up to case, one of the inserted words. *)
Lemma contains_insertAll words : ∀ t w,
  contains (insertAll t words) w = true
  ↔ contains t w = true ∨ ∃ u, u ∈ words ∧ toLowerCase u = toLowerCase w.
Proof.
  induction words as [|x words IH]; intros t w; simpl.
  - split; [by left | intros [H | (u & Hu & _)]; [done | by inversion Hu]].
  - unfold insertAll in *. rewrite IH, contains_insert, orb_true_iff.
    rewrite bool_decide_eq_true. split.
    + intros [[H | H] | (u & Hu & E)]; [by left | right | right].
      * exists x. split; [constructor | done].
      * exists u. split; [by constructor | done].
    + intros [H | (u & Hu & E)]; [by left; left|].
      apply elem_of_cons in Hu as [-> | Hu]; [by left; right|].
      right. by exists u.
Qed.

Lemma contains_newTrie w : contains newTrie w = false.
Proof. unfold contains. apply containsFrom_new. Qed.

Lemma descend_containsFrom path : ∀ node node' rest,
  descend node path = Some node' →
  containsFrom node (path ++ rest) = containsFrom node' rest.
Proof.
  induction path as [|c path IH]; intros node node' rest; simpl.
  - by intros [= ->].
  - destruct (getProp (children node) c) as [child|]; [apply IH | done].
Qed.

Lemma containsFrom_insertAll words : ∀ t path,
  containsFrom (root (insertAll t words)) path = true
  ↔ containsFrom (root t) path = true ∨ ∃ u, u ∈ words ∧ toLowerCase u = path.
Proof.
  induction words as [|x words IH]; intros t path; simpl.
  - split; [by left | intros [H | (u & Hu & _)]; [done | by inversion Hu]].
  - unfold insertAll in *. rewrite IH. unfold insert at 1. cbn [root].
    rewrite containsFrom_insertFrom, orb_true_iff, bool_decide_eq_true. split.
    + intros [[H | H] | (u & Hu & E)]; [by left | right | right].
      * exists x. split; [constructor | done].
      * exists u. split; [by constructor | done].
    + intros [H | (u & Hu & E)]; [by left; left|].
      apply elem_of_cons in Hu as [-> | Hu]; [by left; right|].
      right. by exists u.
Qed.

Lemma getProp_None_iff {V} (o : list (ascii * V)) k :
  getProp o k = None ↔ k ∉ o.*1.
Proof.
  induction o as [|[k' v'] o IH]; simpl.
  - split; [intros _ H; inversion H | done].
  - rewrite not_elem_of_cons. destruct (decide (k' = k)) as [->|Hne].
    + split; [done | by intros [? _]].
    + rewrite IH. split; [by split | by intros [_ ?]].
Qed.

Lemma elem_getProp {V} (o : list (ascii * V)) k v :
  NoDup o.*1 → (k, v) ∈ o → getProp o k = Some v.
Proof.
  induction o as [|[k' v'] o IH]; simpl; intros ND Hin; [by inversion Hin|].
  apply NoDup_cons in ND as [Hk' ND].
  apply elem_of_cons in Hin as [[= <- <-] | Hin].
  - by destruct (decide (k = k)).
  - destruct (decide (k' = k)) as [->|Hne]; [|by apply IH].
    destruct Hk'. apply list_elem_of_fmap. by exists (k, v).
Qed.

Lemma replaceProp_shape {V} (P : V → Prop) (o : list (ascii * V)) k v :
  (replaceProp o k v).*1 = o.*1
  ∧ (P v → Forall (λ p, P p.2) o → Forall (λ p, P p.2) (replaceProp o k v)).
Proof.
  induction o as [|[k' v'] o [IH1 IH2]]; simpl; [done|].
  destruct (decide (k' = k)) as [->|Hne]; simpl.
  - split; [done|]. intros Hv Ho. apply Forall_cons in Ho as [_ Ho].
    by constructor.
  - split; [by f_equal|]. intros Hv Ho. apply Forall_cons in Ho as [Hv' Ho].
    constructor; [done | by apply IH2].
Qed.

Lemma addIndexProp_shape {V} (P : V → Prop) (o : list (ascii * V)) k v :
  (addIndexProp o k v).*1 ≡ₚ k :: o.*1
  ∧ (P v → Forall (λ p, P p.2) o → Forall (λ p, P p.2) (addIndexProp o k v)).
Proof.
  induction o as [|[k' v'] o [IH1 IH2]]; simpl.
  - split; [done | by constructor].
  - destruct (isIndexKey k' && (N_of_ascii k' <? N_of_ascii k)%N); simpl.
    + split; [by rewrite IH1, Permutation_swap|].
      intros Hv Ho. apply Forall_cons in Ho as [Hv' Ho].
      constructor; [done | by apply IH2].
    + split; [done | by constructor].
Qed.

Lemma assignProp_shape {V} (P : V → Prop) (o : list (ascii * V)) k v :
  NoDup o.*1 → P v → Forall (λ p, P p.2) o →
  NoDup (assignProp o k v).*1 ∧ Forall (λ p, P p.2) (assignProp o k v).
Proof.
  intros ND Hv Ho. unfold assignProp. destruct (getProp o k) eqn:E.
  - destruct (replaceProp_shape P o k v) as [-> H]. auto.
  - apply getProp_None_iff in E. unfold addProp. destruct (isIndexKey k).
    + destruct (addIndexProp_shape P o k v) as [-> H].
      split; [by constructor | auto].
    + rewrite fmap_app. simpl. split.
      * apply NoDup_app. split; [done|]. split; [|apply NoDup_singleton].
        intros x Hx Hx'. apply list_elem_of_singleton in Hx'. by subst.
      * apply Forall_app. split; [done|]. by repeat constructor.
Qed.

Lemma wf_new : wf newTrieNode.
Proof. constructor; simpl; constructor. Qed.

Lemma wf_getProp node k child :
  wf node → getProp (children node) k = Some child → wf child.
Proof.
  intros [o e _ Ho]. simpl. induction o as [|[k' v'] o IH]; simpl; [done|].
  apply Forall_cons in Ho as [Hv Ho].
  destruct (decide (k' = k)); [by intros [= <-] | by apply IH].
Qed.

Lemma wf_insertFrom word : ∀ node, wf node → wf (insertFrom node word).
Proof.
  induction word as [|char rest IH]; intros node Hwf; simpl.
  - destruct Hwf. by constructor.
  - assert (Hchild : wf (match getProp (children node) char with
                         | Some child => child | None => newTrieNode end)).
    { destruct (getProp (children node) char) eqn:E;
        [by eapply wf_getProp | apply wf_new]. }
    destruct Hwf as [o e ND Ho]. simpl in *.
    destruct (assignProp_shape wf o char _ ND (IH _ Hchild) Ho).
    by constructor.
Qed.

Lemma wf_insertAll words : ∀ t, wf (root t) → wf (root (insertAll t words)).
Proof.
  induction words as [|x words IH]; intros t Hwf; [done|].
  simpl. apply IH. simpl. by apply wf_insertFrom.
Qed.

Lemma elem_of_foldl_concat {A B} (F : B → list A) (l : list B) : ∀ init w,
  w ∈ foldl (λ results p, results ++ F p) init l →
  w ∈ init ∨ ∃ p, p ∈ l ∧ w ∈ F p.
Proof.
  induction l as [|x l IH]; intros init w; simpl; [by left|].
  intros H. apply IH in H as [H | (p & Hp & H)].
  - apply elem_of_app in H as [H | H]; [by left|].
    right. exists x. split; [constructor | done].
  - right. exists p. split; [by constructor | done].
Qed.

(** Every word [_findAllWords] returns is the current prefix followed
    by a path from the node to an end-of-word node. *)
Lemma _findAllWords_elem cap node : ∀ currentPrefix w,
  wf node → w ∈ _findAllWords cap node currentPrefix →
  ∃ rest, w = currentPrefix ++ rest ∧ containsFrom node rest = true.
Proof.
  induction node as [o e IH] using TrieNode_ind. intros cur w Hwf Hin.
  simpl in Hin. apply subseteq_take in Hin.
  apply (elem_of_foldl_concat (λ p, _findAllWords cap p.2 (cur ++ [p.1]))) in Hin.
  inversion Hwf as [o' e' ND Ho]; subst.
  destruct Hin as [Hin | ([k child] & Hp & Hin)].
  - destruct e; [|by inversion Hin].
    apply list_elem_of_singleton in Hin as ->.
    exists []. by rewrite app_nil_r.
  - simpl in Hin. rewrite Forall_forall in IH, Ho.
    destruct (IH _ Hp (cur ++ [k]) w (Ho _ Hp) Hin) as (rest & -> & Hc).
    exists (k :: rest). split; [by rewrite <- app_assoc|].
    simpl. by rewrite (elem_getProp o k child ND Hp).
Qed.

Lemma length__findAllWords cap node currentPrefix :
  (length (_findAllWords cap node currentPrefix) ≤ cap)%nat.
Proof. destruct node. simpl. rewrite length_take. lia. Qed.

(** Every word of [find(prefix)] is the lower-case form of an inserted
    word and begins with the lower-case form of [prefix]. *)
Lemma find_elem cap words prefix w :
  w ∈ find cap (insertAll newTrie words) prefix →
  toLowerCase prefix `prefix_of` w ∧ ∃ u, u ∈ words ∧ toLowerCase u = w.
Proof.
  unfold find. set (t := insertAll newTrie words).
  destruct (descend (root t) (toLowerCase prefix)) as [node|] eqn:E;
    [|by intros H; inversion H].
  intros Hin.
  assert (Hwf : wf (root t)) by (apply wf_insertAll, wf_new).
  assert (Hnode : wf node).
  { clear Hin. revert E Hwf. generalize (root t).
    induction (toLowerCase prefix) as [|c path IH]; intros n; simpl.
    - by intros [= ->].
    - destruct (getProp (children n) c) eqn:G; [|done].
      intros E Hn. eapply IH; [done|]. by eapply wf_getProp. }
  apply _findAllWords_elem in Hin as (rest & -> & Hc); [|done].
  split; [by exists rest|].
  rewrite <- (descend_containsFrom _ _ _ _ E) in Hc.
  apply containsFrom_insertAll in Hc as [Hc | Hc]; [|done].
  by rewrite containsFrom_new in Hc.
Qed.

(** C9. On the trie built from any inserted words, every word of
    [find(prefix)] begins with [prefix] up to letter case, the result
    has at most [cap] entries (8, formerly 10), and it is empty when no
    inserted word begins with [prefix] up to letter case. *)
Theorem find_spec (cap : nat) (words : list jstring) (prefix : jstring) :
  let t := insertAll newTrie words in
  (∀ w, w ∈ find cap t prefix → startsWithCI prefix w)
  ∧ (length (find cap t prefix) ≤ cap)%nat
  ∧ ((∀ u, u ∈ words → ¬ startsWithCI prefix u) → find cap t prefix = []).
Proof.
  intros t. split; [|split].
  - intros w Hin. apply find_elem in Hin as [[rest ->] _].
    unfold startsWithCI. rewrite toLowerCase_app, toLowerCase_idemp.
    by eexists.
  - unfold find. destruct (descend _ _); [apply length__findAllWords | simpl; lia].
  - intros Hnone. destruct (find cap t prefix) as [|w l] eqn:E; [done|].
    assert (Hin : w ∈ find cap t prefix) by (rewrite E; constructor).
    apply find_elem in Hin as [Hpre (u & Hu & <-)].
    by destruct (Hnone u Hu).
Qed.

Lemma find_spec_witness :
  find cap suggestionTrie (js "Zz") = [].
Proof.
  apply (find_spec cap keywords (js "Zz")).
  apply (proj1 (Forall_forall (λ u, ¬ startsWithCI (js "Zz") u) keywords)).
  unfold startsWithCI. apply (bool_decide_unpack _). vm_compute. reflexivity.
Defined.

End TrieFacts.

(** ** The update route *)

Section ServerFacts.
Import Server.

(** C5. An update whose text is the text the file already has changes
    nothing: the state after it is the state before it, so the two
    stacks, the buffer and the suggestion trie are as they were. *)
Theorem postUpdate_same_text (st : state) (name text : jstring) (f : file) :
  files st !! name = Some f →
  Rope.toString (content f) = text →
  postUpdate st name text = (st, Success)
  ∧ ∀ st' f', (postUpdate st name text).1 = st' → files st' !! name = Some f' →
      length (UndoRedoManager.undoStack (history f'))
        = length (UndoRedoManager.undoStack (history f))
      ∧ length (UndoRedoManager.redoStack (history f'))
        = length (UndoRedoManager.redoStack (history f))
      ∧ Rope.toString (content f') = text
      ∧ suggestionTrie st' = suggestionTrie st.
Proof.
  intros Hf Htext.
  assert (E : postUpdate st name text = (st, Success)).
  { unfold postUpdate. rewrite Hf.
    rewrite bool_decide_eq_false_2; [done | by intros []]. }
  split; [done|]. rewrite E. simpl. intros st' f' <- Hf'.
  rewrite Hf in Hf'. by injection Hf' as <-.
Qed.

Lemma postUpdate_same_text_witness :
  postUpdate initial (js "example.txt")
    (js "Welcome to the Editor." ++ [newline] ++ js "Start typing to see the magic.")
  = (initial, Success).
Proof.
  eapply postUpdate_same_text.
  - vm_compute. reflexivity.
  - vm_compute. reflexivity.
Defined.

(** The earlier revision did save on such an update: on the file as
    first loaded, whose stack is empty, the text is pushed. *)
Example postUpdate_earlier_saves :
  let text := js "Welcome to the Editor." ++ [newline]
                ++ js "Start typing to see the magic." in
  (λ f, UndoRedoManager.undoStack (history f))
    <$> files (postUpdate_earlier initial (js "example.txt") text).1
          !! js "example.txt"
  = Some [text].
Proof. vm_compute. reflexivity. Qed.

End ServerFacts.

(** ** The spell checker *)

Section SpellingFacts.
Import Regex Server.

Lemma setOf_spec (l : list jstring) :
  NoDup (setOf l) ∧ ∀ w, w ∈ setOf l ↔ w ∈ l.
Proof.
  unfold setOf.
  assert (H : ∀ set, NoDup set →
    NoDup (foldl (λ set w, if bool_decide (w ∈ set) then set else set ++ [w]) set l)
    ∧ ∀ w, w ∈ foldl (λ set w, if bool_decide (w ∈ set) then set else set ++ [w]) set l
           ↔ w ∈ set ∨ w ∈ l).
  { induction l as [|x l IH]; intros set ND; simpl.
    - split; [done|]. intros w. split; [by left | intros [H | H]; [done | by inversion H]].
    - case_bool_decide as Hx.
      + destruct (IH set ND) as [IH1 IH2]. split; [done|].
        intros w. rewrite IH2, elem_of_cons. split; [tauto|].
        intros [H | [-> | H]]; tauto.
      + assert (ND' : NoDup (set ++ [x])).
        { apply NoDup_app. split; [done|]. split; [|apply NoDup_singleton].
          intros y Hy Hy'. apply list_elem_of_singleton in Hy'. by subst. }
        destruct (IH _ ND') as [IH1 IH2]. split; [done|].
        intros w. rewrite IH2, elem_of_app, list_elem_of_singleton, elem_of_cons.
        tauto. }
  destruct (H [] (NoDup_nil_2)) as [H1 H2]. split; [done|].
  intros w. rewrite H2. split; [intros [H' | H']; [by inversion H' | done] | by right].
Qed.

Lemma letters_take (s : jstring) : ∀ n,
  (n ≤ letters s)%nat → length (take n s) = n ∧ Forall (λ c, isAlpha c = true) (take n s).
Proof.
  induction s as [|c s IH]; intros n Hn; simpl in *.
  - assert (n = 0%nat) as -> by lia. done.
  - destruct n as [|n]; [done|]. simpl.
    destruct (isAlpha c) eqn:E; [|lia].
    destruct (IH n) as [IH1 IH2]; [lia|]. split; [by f_equal | by constructor].
Qed.

Lemma matchAt_Some prev s n :
  matchAt prev s = Some n → (3 ≤ n ≤ letters s)%nat.
Proof.
  unfold matchAt. destruct (boundary prev (head s)); [|done].
  intros H. apply find_some in H as [H _].
  apply in_rev, in_seq in H. lia.
Qed.

(** Every match is a run of at least three letters of the text. *)
Lemma matchAll_elem (s : jstring) : ∀ prev skip w,
  w ∈ matchAll prev skip s →
  (3 ≤ length w)%nat ∧ Forall (λ c, isAlpha c = true) w
  ∧ ∃ before after, s = before ++ w ++ after.
Proof.
  induction s as [|c s IH]; intros prev skip w; simpl; [by intros H; inversion H|].
  assert (Hrest : ∀ prev' skip', w ∈ matchAll prev' skip' s →
            (3 ≤ length w)%nat ∧ Forall (λ c, isAlpha c = true) w
            ∧ ∃ before after, c :: s = before ++ w ++ after).
  { intros prev' skip' H. destruct (IH _ _ _ H) as (H1 & H2 & before & after & ->).
    split; [done|]. split; [done|]. by exists (c :: before), after. }
  destruct skip as [|skip]; [|apply Hrest].
  destruct (matchAt prev (c :: s)) as [n|] eqn:E; [|apply Hrest].
  intros H. apply elem_of_cons in H as [-> | H]; [|by eapply Hrest].
  apply matchAt_Some in E. destruct (letters_take (c :: s) n) as [H1 H2]; [lia|].
  split; [lia|]. split; [done|].
  exists [], (drop n (c :: s)). simpl. by rewrite take_drop.
Qed.

Lemma letters_lookup (s : jstring) : ∀ i,
  (i < letters s)%nat → ∃ c, s !! i = Some c ∧ isAlpha c = true.
Proof.
  induction s as [|a s IH]; intros i Hi; simpl in *; [lia|].
  destruct (isAlpha a) eqn:E; [|lia].
  destruct i as [|i]; [by exists a|]. apply IH. lia.
Qed.

Lemma letters_end (s : jstring) :
  match s !! letters s with Some c => isAlpha c = false | None => True end.
Proof.
  induction s as [|a s IH]; simpl; [done|].
  by destruct (isAlpha a) eqn:E.
Qed.

Lemma isWordChar_alpha c : isAlpha c = true → isWordChar (Some c) = true.
Proof. simpl. by intros ->. Qed.

Lemma matchAt_iff (prev : option ascii) (s : jstring) (n : nat) :
  matchAt prev s = Some n
  ↔ isWordChar prev = false ∧ n = letters s ∧ (3 ≤ n)%nat
    ∧ isWordChar (s !! n) = false.
Proof.
  unfold matchAt, boundary. split.
  - destruct (xorb (isWordChar prev) (isWordChar (head s))) eqn:B; [|done].
    intros H. apply find_some in H as [Hin Hb].
    apply in_rev, in_seq in Hin.
    destruct (letters_lookup s (n - 1)) as (c & Hc & Ha); [lia|].
    rewrite Hc, (isWordChar_alpha _ Ha) in Hb. simpl in Hb.
    apply negb_true_iff in Hb.
    destruct (letters_lookup s 0) as (c0 & Hc0 & Ha0); [lia|].
    rewrite head_lookup, Hc0, (isWordChar_alpha _ Ha0) in B.
    destruct (isWordChar prev); [done|].
    split; [done|]. split; [|by split; [lia|]].
    destruct (decide (n = letters s)) as [|Hne]; [done|].
    destruct (letters_lookup s n) as (c' & Hc' & Ha'); [lia|].
    by rewrite Hc', (isWordChar_alpha _ Ha') in Hb.
  - intros (Hp & -> & H3 & Hn). rewrite Hp.
    destruct (letters_lookup s 0) as (c0 & Hc0 & Ha0); [lia|].
    rewrite head_lookup, Hc0, (isWordChar_alpha _ Ha0). cbn [xorb].
    replace (letters s - 2)%nat with (S (letters s - 3)) by lia.
    rewrite seq_S, rev_unit. cbn [List.find].
    replace (3 + (letters s - 3))%nat with (letters s) by lia.
    destruct (letters_lookup s (letters s - 1)) as (c & Hc & Ha); [lia|].
    by rewrite Hc, (isWordChar_alpha _ Ha), Hn.
Qed.

Lemma letters_app_alpha (w rest : jstring) :
  Forall (λ c, isAlpha c = true) w →
  letters (w ++ rest) = (length w + letters rest)%nat.
Proof.
  induction 1 as [|c w Hc Hw IH]; [done|]. simpl. by rewrite Hc, IH.
Qed.

Lemma letters_not_word (s : jstring) : isWordChar (head s) = false → letters s = 0%nat.
Proof.
  destruct s as [|c s]; [done|]. intros H. cbn [letters head] in *.
  destruct (isAlpha c) eqn:E; [|done]. by rewrite (isWordChar_alpha _ E) in H.
Qed.

Lemma charBefore_cons prev c before :
  charBefore prev (c :: before) = charBefore (Some c) before.
Proof.
  unfold charBefore. destruct before as [|b before]; [done|].
  change (last (c :: b :: before)) with (last (b :: before)).
  destruct (last (b :: before)) eqn:E; [done|]. by apply last_None in E.
Qed.

(** Every match is a whole word. *)
Lemma matchAll_sound (s : jstring) : ∀ prev skip w,
  w ∈ matchAll prev skip s →
  (3 ≤ length w)%nat ∧ Forall (λ c, isAlpha c = true) w
  ∧ ∃ before after, s = before ++ w ++ after
      ∧ isWordChar (charBefore prev before) = false
      ∧ isWordChar (head after) = false.
Proof.
  induction s as [|c s IH]; intros prev skip w; simpl; [by intros H; inversion H|].
  assert (Hrest : ∀ skip', w ∈ matchAll (Some c) skip' s →
            (3 ≤ length w)%nat ∧ Forall (λ c, isAlpha c = true) w
            ∧ ∃ before after, c :: s = before ++ w ++ after
                ∧ isWordChar (charBefore prev before) = false
                ∧ isWordChar (head after) = false).
  { intros skip' H.
    destruct (IH _ _ _ H) as (H1 & H2 & before & after & -> & Hb & Ha).
    split; [done|]. split; [done|]. exists (c :: before), after.
    split; [done|]. by rewrite charBefore_cons. }
  destruct skip as [|skip]; [|apply Hrest].
  destruct (matchAt prev (c :: s)) as [n|] eqn:E; [|apply Hrest].
  intros H. apply elem_of_cons in H as [-> | H]; [|by eapply Hrest].
  apply matchAt_iff in E as (Hp & -> & H3 & Hn).
  destruct (letters_take (c :: s) (letters (c :: s))) as [H1 H2]; [lia|].
  split; [lia|]. split; [done|].
  exists [], (drop (letters (c :: s)) (c :: s)).
  split; [by rewrite app_nil_l, take_drop|]. split; [done|].
  by rewrite head_lookup, lookup_drop, Nat.add_0_r.
Qed.

(** Every whole word is matched: the scan starts an attempt at its
    first letter, for no match reaches over a character that is no
    letter. *)
Lemma matchAll_complete (before : jstring) : ∀ prev skip w after,
  (3 ≤ length w)%nat → Forall (λ c, isAlpha c = true) w →
  isWordChar (charBefore prev before) = false →
  isWordChar (head after) = false →
  (skip ≤ letters (before ++ w ++ after))%nat →
  (0 < skip → isWordChar prev = true)%nat →
  w ∈ matchAll prev skip (before ++ w ++ after).
Proof.
  induction before as [|b before IH]; intros prev skip w after H3 Hw Hb Ha Hskip Hprev.
  - unfold charBefore in Hb. simpl in Hb.
    destruct skip as [|skip]; [|rewrite Hprev in Hb by lia; done].
    rewrite app_nil_l in *.
    assert (Hl : letters (w ++ after) = length w).
    { rewrite letters_app_alpha, letters_not_word by done. lia. }
    assert (E : matchAt prev (w ++ after) = Some (length w)).
    { apply matchAt_iff. split; [done|]. split; [done|]. split; [done|].
      rewrite lookup_app_r by lia. by rewrite Nat.sub_diag, <- head_lookup. }
    destruct w as [|c w]; [simpl in H3; lia|].
    cbn [matchAll app] in *. rewrite E.
    replace (take (length (c :: w)) (c :: w ++ after)) with (c :: w);
      [constructor|].
    change (c :: w ++ after) with ((c :: w) ++ after).
    by rewrite take_app_length.
  - rewrite charBefore_cons in Hb. cbn [app] in *.
    destruct skip as [|skip]; cbn [matchAll].
    + destruct (matchAt prev (b :: before ++ w ++ after)) as [n|] eqn:E.
      * apply matchAt_iff in E as (_ & -> & Hn & _). constructor.
        simpl in Hn |- *. destruct (isAlpha b) eqn:Eb; [|lia].
        apply IH; try done; [simpl; lia|]. intros _. simpl. by rewrite Eb.
      * apply IH; try done; [lia|]. intros Hlt. lia.
    + simpl in Hskip. destruct (isAlpha b) eqn:Eb; [|lia].
      apply IH; try done; [lia|]. intros _. simpl. by rewrite Eb.
Qed.

(** The matches of the pattern are the whole words of the text. *)
Lemma matchAll_whole_words text w :
  w ∈ matchAll None 0 text ↔ wholeWordOf text w.
Proof.
  split.
  - intros H. apply matchAll_sound in H as (H1 & H2 & before & after & E & Hb & Ha).
    split; [done|]. split; [done|]. exists before, after. split; [done|].
    split; [|done]. unfold charBefore in Hb. by destruct (last before).
  - intros (H1 & H2 & before & after & -> & Hb & Ha).
    apply matchAll_complete; try done; [|lia|lia].
    unfold charBefore. by destruct (last before).
Qed.

(** C10, as stated, fails: in ["abcd1"] the letters [abcd] are a run
    of four alphabetic characters and no word of the vocabulary, and
    the spell checker does not report them: the pattern asks for a
    word boundary after the run, and there is none before a digit. *)
Lemma postCheckSpelling_skips_letter_run :
  let text := js "abcd1" in
  letterRunOf text (js "abcd")
  ∧ Trie.contains (suggestionTrie initial) (js "abcd") = false
  ∧ postCheckSpelling initial text = WrongWords []
  ∧ ¬ (∀ w, w ∈ [] ↔ letterRunOf text w
                       ∧ Trie.contains (suggestionTrie initial) w = false).
Proof.
  intros text.
  assert (Hrun : letterRunOf text (js "abcd")).
  { split; [simpl; lia|]. split; [by repeat constructor|].
    exists [], (js "1"). split; [done|]. split; [done|]. by intros c [= <-]. }
  assert (Hc : Trie.contains (suggestionTrie initial) (js "abcd") = false)
    by (by vm_compute).
  split; [done|]. split; [done|]. split; [by vm_compute|].
  intros H. destruct (H (js "abcd")) as [_ H']. specialize (H' (conj Hrun Hc)).
  inversion H'.
Qed.

(** C10, amended. The spell checker answers with the distinct whole
    words of the text (runs of three or more letters that neither
    follow nor precede a letter, a digit or an underscore) that are
    not, letter case apart, inserted words: exactly those, each once,
    and so never a word the trie contains. *)
Theorem postCheckSpelling_spec (fs : gmap jstring file) (words : list jstring)
    (text : jstring) :
  let st := mkState fs (Trie.insertAll Trie.newTrie words) in
  ∃ wrongWords,
    postCheckSpelling st text = WrongWords wrongWords
    ∧ NoDup wrongWords
    ∧ (∀ w, w ∈ wrongWords →
         Trie.contains (suggestionTrie st) w = false
         ∧ ¬ ∃ u, u ∈ words ∧ toLowerCase u = toLowerCase w)
    ∧ (∀ w, w ∈ wrongWords ↔
         wholeWordOf text w
         ∧ ¬ ∃ u, u ∈ words ∧ toLowerCase u = toLowerCase w).
Proof.
  intros st. eexists. split; [reflexivity|].
  set (wrong := filter _ _).
  destruct (setOf_spec wrong) as [ND Hset].
  assert (Hvoc : ∀ w, Trie.contains (suggestionTrie st) w = false
                      ↔ ¬ ∃ u, u ∈ words ∧ toLowerCase u = toLowerCase w).
  { intros w. rewrite <- not_true_iff_false. simpl.
    rewrite contains_insertAll, contains_newTrie. split.
    - intros H1 H2. apply H1. by right.
    - intros H1 [H2 | H2]; [done | by apply H1]. }
  assert (Hwrong : ∀ w, w ∈ setOf wrong ↔
            wholeWordOf text w
            ∧ ¬ ∃ u, u ∈ words ∧ toLowerCase u = toLowerCase w).
  { intros w. rewrite Hset. unfold wrong.
    rewrite list_elem_of_filter, Hvoc, matchAll_whole_words. tauto. }
  split; [done|]. split; [|done].
  intros w Hw. apply Hwrong in Hw as [_ Hw]. split; [by apply Hvoc | done].
Qed.

End SpellingFacts.

(** ** The search *)

Section SearchFacts.
Import Search.

Lemma loop_unfold fuel text pattern badChar s results :
  loop (S fuel) text pattern badChar s results =
    if s <=? len text - len pattern then
      loop fuel text pattern badChar
        (step text pattern badChar s results).1
        (step text pattern badChar s results).2
    else Some results.
Proof. simpl. by destruct (step text pattern badChar s results). Qed.

(** Two offsets inside the text that send the loop to one another keep
    it running whatever the number of passes. *)
Lemma loop_cycle text pattern badChar s0 s1 :
  s0 ≤ len text - len pattern → s1 ≤ len text - len pattern →
  (∀ results, (step text pattern badChar s0 results).1 = s1) →
  (∀ results, (step text pattern badChar s1 results).1 = s0) →
  ∀ fuel results,
    loop fuel text pattern badChar s0 results = None
    ∧ loop fuel text pattern badChar s1 results = None.
Proof.
  intros H0 H1 E0 E1. induction fuel as [|fuel IH]; intros results; [done|].
  rewrite !loop_unfold.
  destruct (Z.leb_spec s0 (len text - len pattern)); [|lia].
  destruct (Z.leb_spec s1 (len text - len pattern)); [|lia].
  rewrite E0, E1. split; apply IH.
Qed.

Lemma StronglySorted_seqZ m n : StronglySorted Z.lt (seqZ m n).
Proof.
  destruct (Z.le_gt_cases n 0) as [Hn | Hn]; [rewrite seqZ_nil by done; constructor|].
  rewrite <- (Z2Nat.id n) by lia. generalize (Z.to_nat n) as k. clear.
  induction k as [|k IH]; [constructor|].
  rewrite seqZ_S. apply StronglySorted_app; split; [|split; [done | repeat constructor]].
  intros x y Hx Hy. apply elem_of_seqZ in Hx. apply list_elem_of_singleton in Hy. lia.
Qed.

Lemma StronglySorted_filter {A} (R : relation A) (P : A → Prop)
    `{!∀ x, Decision (P x)} (l : list A) :
  StronglySorted R l → StronglySorted R (filter P l).
Proof.
  induction 1 as [|x l Hl IH Hx]; [constructor|].
  destruct (decide (P x)).
  - rewrite filter_cons_True by done. constructor; [done|].
    apply Forall_forall. intros y Hy. apply list_elem_of_filter in Hy as [_ Hy].
    by apply (proj1 (Forall_forall _ _) Hx).
  - by rewrite filter_cons_False.
Qed.

(** [occurrences] lists the offsets at which the pattern fits and
    occurs, each once, in ascending order. *)
Lemma occurrences_spec text pattern :
  (∀ i, i ∈ occurrences text pattern
        ↔ 0 ≤ i ≤ len text - len pattern ∧ occursAt text pattern i)
  ∧ StronglySorted Z.lt (occurrences text pattern).
Proof.
  unfold occurrences, occurrencesBelow. split.
  - intros i. rewrite list_elem_of_filter, elem_of_seqZ. intuition lia.
  - apply StronglySorted_filter, StronglySorted_seqZ.
Qed.

Lemma occursAt_lookup text pattern (k : nat) :
  occursAt text pattern (Z.of_nat k)
  ↔ ∀ i, (i < length pattern)%nat → text !! (k + i)%nat = pattern !! i.
Proof.
  unfold occursAt. rewrite Nat2Z.id. split.
  - intros E i Hi. rewrite <- E.
    by rewrite lookup_take_lt, lookup_drop.
  - intros H. apply list_eq. intros i.
    destruct (decide (i < length pattern)%nat).
    + by rewrite lookup_take_lt, lookup_drop, H.
    + rewrite lookup_take_ge by lia. symmetry. apply lookup_ge_None. lia.
Qed.

Lemma occursAt_bound text pattern i :
  0 ≤ i → pattern ≠ [] → occursAt text pattern i → i + len pattern ≤ len text.
Proof.
  unfold occursAt, len. intros Hi Hp E. apply (f_equal length) in E.
  rewrite length_take, length_drop in E.
  destruct pattern; [done|]. cbn [length] in *. lia.
Qed.

(** [badChar] holds, for each character of the pattern, the last index
    at which it occurs, and nothing else. *)
Lemma fillBadChar_lookup pattern : ∀ i0 badChar c,
  match fillBadChar pattern i0 badChar !! c with
  | Some v =>
      (∃ k : nat, (v = i0 + Z.of_nat k) ∧ (pattern !! k = Some c)
                  ∧ ∀ k' : nat, (k < k')%nat → pattern !! k' ≠ Some c)
      ∨ ((c ∉ pattern) ∧ badChar !! c = Some v)
  | None => (c ∉ pattern) ∧ badChar !! c = None
  end.
Proof.
  induction pattern as [|a pattern IH]; intros i0 badChar c; simpl.
  - destruct (badChar !! c) eqn:E.
    + right. split; [by intros H; inversion H | done].
    + split; [by intros H; inversion H | done].
  - specialize (IH (i0 + 1) (<[a := i0]> badChar) c).
    destruct (fillBadChar pattern (i0 + 1) (<[a:=i0]> badChar) !! c) as [v|].
    + destruct IH as [(k & -> & Hk & Hlast) | [Hnot Hb]].
      * left. exists (S k). split; [lia|]. split; [done|].
        intros [|k'] Hlt; [lia|]. simpl. apply Hlast. lia.
      * destruct (decide (a = c)) as [->|Hne].
        -- rewrite lookup_insert_eq in Hb. injection Hb as <-.
           left. exists 0%nat. split; [lia|]. split; [done|].
           intros [|k'] Hlt; [lia|]. simpl. intros Hk'.
           apply Hnot. by eapply list_elem_of_lookup_2.
        -- rewrite lookup_insert_ne in Hb by done. right.
           split; [|done]. rewrite not_elem_of_cons. split; [congruence | done].
    + destruct IH as [Hnot Hb]. destruct (decide (a = c)) as [->|Hne].
      * by rewrite lookup_insert_eq in Hb.
      * rewrite lookup_insert_ne in Hb by done.
        split; [|done]. rewrite not_elem_of_cons. split; [congruence | done].
Qed.

Lemma badChar_Some pattern c v :
  fillBadChar pattern 0 ∅ !! c = Some v →
  ∃ k : nat, v = Z.of_nat k ∧ pattern !! k = Some c
             ∧ ∀ k' : nat, (k < k')%nat → pattern !! k' ≠ Some c.
Proof.
  intros E. pose proof (fillBadChar_lookup pattern 0 ∅ c) as H. rewrite E in H.
  destruct H as [(k & -> & H) | [_ H]]; [by exists k | by rewrite lookup_empty in H].
Qed.

Lemma badChar_None pattern c :
  fillBadChar pattern 0 ∅ !! c = None ↔ c ∉ pattern.
Proof.
  pose proof (fillBadChar_lookup pattern 0 ∅ c) as H. split.
  - intros E. rewrite E in H. tauto.
  - intros Hnot. destruct (fillBadChar pattern 0 ∅ !! c); [|done].
    destruct H as [(k & _ & Hk & _) | [_ H]].
    + destruct Hnot. by eapply list_elem_of_lookup_2.
    + by rewrite lookup_empty in H.
Qed.

(** The inner loop stops at the first index, from [k - 1] down, where
    the pattern and the text differ, or at [-1]. *)
Lemma scanBack_spec text pattern s k :
  let j := scanBack text pattern s k in
  -1 ≤ j < Z.of_nat k
  ∧ (∀ i : nat, j < Z.of_nat i < Z.of_nat k →
       pattern !! i = charAt text (s + Z.of_nat i))
  ∧ (0 ≤ j → pattern !! Z.to_nat j ≠ charAt text (s + j)).
Proof.
  induction k as [|k IH]; simpl.
  - split; [lia|]. split; [lia | lia].
  - case_bool_decide as E.
    + destruct IH as (H1 & H2 & H3). split; [lia|]. split; [|done].
      intros i Hi. destruct (decide (i = k)) as [->|]; [done|].
      apply H2. lia.
    + split; [lia|]. split; [lia|]. intros _. by rewrite Nat2Z.id.
Qed.

Lemma charAt_nonneg text i : 0 ≤ i → charAt text i = text !! Z.to_nat i.
Proof. unfold charAt. intros H. destruct (Z.ltb_spec i 0); [lia | done]. Qed.

Section Run.
Variables text pattern : jstring.
Hypothesis nonempty : pattern ≠ [].

Let m := len pattern.
Let n := len text.
Let badChar := fillBadChar pattern 0 ∅.

Lemma m_pos : 0 < m.
Proof. unfold m, len. destruct pattern; [done | simpl; lia]. Qed.

(** A pass finds a full match exactly at the occurrences. *)
Lemma scanBack_match s :
  0 ≤ s → (scanBack text pattern s (length pattern) < 0 ↔ occursAt text pattern s).
Proof.
  intros Hs. destruct (scanBack_spec text pattern s (length pattern)) as (H1 & H2 & H3).
  replace s with (Z.of_nat (Z.to_nat s)) at 2 by lia. rewrite occursAt_lookup. split.
  - intros Hj i Hi. rewrite H2 by lia. rewrite charAt_nonneg by lia.
    f_equal. lia.
  - intros H. destruct (Z.ltb_spec (scanBack text pattern s (length pattern)) 0) as [|Hj];
      [done|].
    destruct (H3 Hj). rewrite charAt_nonneg by lia.
    rewrite <- H by lia. f_equal. lia.
Qed.

Local Abbreviation below := (occurrencesBelow text pattern).

Lemma filter_none {A} (P : A → Prop) `{!∀ x, Decision (P x)} (l : list A) :
  (∀ x, x ∈ l → ¬ P x) → filter P l = [].
Proof.
  induction l as [|x l IH]; intros Hnone; [done|].
  rewrite filter_cons_False by (apply Hnone; constructor).
  apply IH. intros y Hy. apply Hnone. by constructor.
Qed.

Lemma below_skip s s' :
  0 ≤ s ≤ s' → (∀ d, s ≤ d < s' → ¬ occursAt text pattern d) → below s' = below s.
Proof.
  intros Hs Hnone. unfold occurrencesBelow.
  replace s' with (s + (s' - s)) by lia. rewrite seqZ_app by lia.
  rewrite filter_app, (filter_none _ (seqZ (0 + s) _)); [by rewrite app_nil_r|].
  intros d Hd. apply elem_of_seqZ in Hd. apply Hnone. lia.
Qed.

Lemma below_succ s :
  0 ≤ s → occursAt text pattern s → below (s + 1) = below s ++ [s].
Proof.
  intros Hs Hocc. unfold occurrencesBelow. rewrite seqZ_app by lia.
  rewrite filter_app. f_equal. by rewrite seqZ_cons, filter_cons_True.
Qed.

Lemma below_end s : n - m < s → below s = occurrences text pattern.
Proof.
  intros Hs. unfold occurrences. fold m n.
  destruct (Z.le_gt_cases 0 (n - m + 1)).
  - apply (below_skip (n - m + 1) s); [lia|].
    intros d Hd Hocc. apply occursAt_bound in Hocc; [|lia|done]. fold m n in Hocc. lia.
  - unfold occurrencesBelow. rewrite (seqZ_nil 0 (n - m + 1)) by lia.
    apply filter_none. intros d Hd Hocc. apply elem_of_seqZ in Hd.
    apply occursAt_bound in Hocc; [|lia|done]. fold m n in Hocc. lia.
Qed.

Lemma charAt_inside i : 0 ≤ i < n → ∃ c, charAt text i = Some c ∧ text !! Z.to_nat i = Some c.
Proof.
  intros Hi. rewrite charAt_nonneg by lia.
  destruct (lookup_lt_is_Some_2 text (Z.to_nat i)) as [c Hc]; [unfold n, len in Hi; lia|].
  by exists c.
Qed.

(** The value the mismatch branch subtracts for the character [c]. *)
Lemma badChar_last c (i : nat) :
  pattern !! i = Some c →
  ∃ v, badChar !! c = Some v ∧ Z.of_nat i ≤ v.
Proof.
  intros Hi. destruct (badChar !! c) as [v|] eqn:E.
  - exists v. split; [done|]. apply badChar_Some in E as (k & -> & _ & Hlast).
    destruct (decide (i ≤ k)%nat); [lia|]. destruct (Hlast i); [lia | done].
  - apply badChar_None in E. destruct E. by eapply list_elem_of_lookup_2.
Qed.

(** A pass from an offset that is not stuck moves forward, records the
    offset if the pattern occurs there, and jumps over no occurrence. *)
Lemma step_forward s results :
  0 ≤ s ≤ n - m → ¬ stuckAt text pattern s →
  ∃ s', step text pattern badChar s results
          = (s', if decide (occursAt text pattern s) then results ++ [s] else results)
        ∧ s < s' ∧ ∀ d, s < d < s' → ¬ occursAt text pattern d.
Proof.
  intros Hs Hfree. pose proof m_pos as Hm. unfold step. fold m n.
  destruct (scanBack_spec text pattern s (length pattern)) as (Hj1 & Hj2 & Hj3).
  pose proof (scanBack_match s (proj1 Hs)) as Hocc.
  set (j := scanBack text pattern s (length pattern)) in *.
  fold (len pattern) in Hj1, Hj2. fold m in Hj1, Hj2.
  destruct (Z.ltb_spec j 0) as [Hneg | Hpos].
  - rewrite decide_True by tauto. unfold push.
    destruct (Z.ltb_spec (s + m) n) as [Hin | Hend].
    + destruct (charAt_inside (s + m)) as (c & -> & Hc); [lia|]. simpl.
      destruct (badChar !! c) as [v|] eqn:E.
      * apply badChar_Some in E as (k & -> & Hk & Hlast).
        pose proof (lookup_lt_Some _ _ _ Hk) as Hklt.
        fold (len pattern) in Hklt. simpl.
        assert (Hkm : Z.of_nat k < m) by (unfold m, len; lia).
        destruct (Z.eqb_spec (m - Z.of_nat k) 0); [lia|].
        eexists. split; [reflexivity|]. split; [lia|].
        intros d Hd Hd'. replace d with (Z.of_nat (Z.to_nat d)) in Hd' by lia.
        rewrite occursAt_lookup in Hd'.
        specialize (Hd' (Z.to_nat (s + m - d))).
        replace (Z.to_nat d + Z.to_nat (s + m - d))%nat with (Z.to_nat (s + m)) in Hd' by lia.
        rewrite Hc in Hd'. apply (Hlast (Z.to_nat (s + m - d))); [lia|].
        symmetry. apply Hd'. unfold m, len in *. lia.
      * apply badChar_None in E. destruct Hfree.
        split; [lia|]. split; [tauto|]. by exists c.
    + eexists. split; [reflexivity|]. split; [lia|]. intros d Hd. lia.
  - rewrite decide_False by (intros H; apply Hocc in H; lia).
    destruct (charAt_inside (s + j)) as (c & -> & Hc); [lia|]. simpl.
    eexists. split; [reflexivity|]. split; [lia|].
    intros d Hd Hd'. replace d with (Z.of_nat (Z.to_nat d)) in Hd' by lia.
    rewrite occursAt_lookup in Hd'.
    set (b := match badChar !! c with Some v => v | None => -1 end) in *.
    assert (Hb : -1 ≤ b).
    { subst b. destruct (badChar !! c) as [v|] eqn:E; [|lia].
      apply badChar_Some in E as (k & -> & _). lia. }
    specialize (Hd' (Z.to_nat (j - (d - s)))).
    replace (Z.to_nat d + Z.to_nat (j - (d - s)))%nat with (Z.to_nat (s + j)) in Hd' by lia.
    rewrite Hc in Hd'.
    assert (Hi : pattern !! Z.to_nat (j - (d - s)) = Some c).
    { symmetry. apply Hd'. unfold m, len in *. lia. }
    destruct (badChar_last _ _ Hi) as (v & E & Hle). subst b. rewrite E in Hd. lia.
Qed.

(** A pass from a stuck offset moves one step back, and the pass from
    there moves one step forward again. *)
Lemma step_stuck s results :
  stuckAt text pattern s →
  (step text pattern badChar s results).1 = s - 1
  ∧ (step text pattern badChar (s - 1) results).1 = s.
Proof.
  intros (Hs & Hocc & c & Hc & Hnot). pose proof m_pos as Hm. fold m in Hc.
  assert (Hin : s + m < n).
  { pose proof (lookup_lt_Some _ _ _ Hc). unfold n, m, len in *. lia. }
  split.
  - unfold step. fold m n.
    apply (scanBack_match s Hs) in Hocc.
    destruct (Z.ltb_spec (scanBack text pattern s (length pattern)) 0); [|lia].
    destruct (Z.ltb_spec (s + m) n); [|lia].
    rewrite charAt_nonneg, Hc by lia. simpl.
    apply badChar_None in Hnot. fold badChar in Hnot. rewrite Hnot. simpl. lia.
  - replace s with (Z.of_nat (Z.to_nat s)) in Hocc by lia.
    rewrite occursAt_lookup in Hocc.
    unfold step. fold m n.
    destruct (scanBack_spec text pattern (s - 1) (length pattern)) as (Hj1 & Hj2 & Hj3).
    set (j := scanBack text pattern (s - 1) (length pattern)) in *.
    fold (len pattern) in Hj1. fold m in Hj1.
    destruct (Z.ltb_spec j 0) as [Hneg | Hpos].
    + destruct (Z.ltb_spec (s - 1 + m) n); [|lia]. simpl.
      specialize (Hocc (Z.to_nat (m - 1))).
      rewrite charAt_nonneg by lia.
      replace (Z.to_nat (s - 1 + m)) with (Z.to_nat s + Z.to_nat (m - 1))%nat by lia.
      rewrite Hocc by (unfold m, len in *; lia).
      destruct (lookup_lt_is_Some_2 pattern (Z.to_nat (m - 1))) as [a Ha];
        [unfold m, len in *; lia|].
      rewrite Ha. simpl.
      destruct (badChar_last _ _ Ha) as (v & E & Hle). rewrite E. simpl.
      apply badChar_Some in E as (k & -> & Hk & _).
      apply lookup_lt_Some in Hk.
      assert (m - Z.of_nat k = 1) as -> by (unfold m, len in *; lia).
      simpl. lia.
    + simpl. f_equal.
      assert (Hle : j - match lookupBad badChar (charAt text (s - 1 + j)) with
                        | Some v => v | None => -1 end ≤ 1).
      { destruct (decide (j = 0)) as [-> | Hj0].
        - destruct (lookupBad badChar (charAt text (s - 1 + 0))) as [v|] eqn:E; [|lia].
          destruct (charAt text (s - 1 + 0)); [|done]. simpl in E.
          apply badChar_Some in E as (k & -> & _). lia.
        - specialize (Hocc (Z.to_nat (j - 1))).
          rewrite charAt_nonneg by lia.
          replace (Z.to_nat (s - 1 + j)) with (Z.to_nat s + Z.to_nat (j - 1))%nat by lia.
          rewrite Hocc by (unfold m, len in *; lia).
          destruct (lookup_lt_is_Some_2 pattern (Z.to_nat (j - 1))) as [a Ha];
            [unfold m, len in *; lia|].
          rewrite Ha. simpl.
          destruct (badChar_last _ _ Ha) as (v & E & Hv). rewrite E. lia. }
      lia.
Qed.

Lemma stuckAt_cases s : stuckAt text pattern s ∨ ¬ stuckAt text pattern s.
Proof.
  unfold stuckAt.
  destruct (decide (0 ≤ s)); [|right; tauto].
  destruct (decide (occursAt text pattern s)); [|right; tauto].
  destruct (text !! Z.to_nat (s + len pattern)) as [c|] eqn:E.
  - destruct (decide (c ∈ pattern)).
    + right. intros (_ & _ & c' & [= <-] & H). done.
    + left. split; [done|]. split; [done|]. by exists c.
  - right. by intros (_ & _ & c' & [=] & _).
Qed.

Lemma below_step s s' :
  0 ≤ s < s' → (∀ d, s < d < s' → ¬ occursAt text pattern d) →
  below s' = if decide (occursAt text pattern s) then below s ++ [s] else below s.
Proof.
  intros Hs Hnone. destruct (decide (occursAt text pattern s)) as [Hocc | Hocc].
  - rewrite <- below_succ by tauto. apply below_skip; [lia|].
    intros d Hd. apply Hnone. lia.
  - apply below_skip; [lia|]. intros d Hd.
    destruct (decide (d = s)) as [-> | Hne]; [done|]. apply Hnone. lia.
Qed.

(** From an offset at or before a stuck one, the loop does not end. *)
Lemma loop_stuck s0 : stuckAt text pattern s0 →
  ∀ fuel s, 0 ≤ s ≤ s0 → loop fuel text pattern badChar s (below s) = None.
Proof.
  intros Hstuck. pose proof m_pos as Hm.
  assert (Hin : s0 + m < n).
  { destruct Hstuck as (_ & _ & c & Hc & _). apply lookup_lt_Some in Hc.
    unfold n, m, len in *. lia. }
  induction fuel as [|fuel IH]; intros s Hs; [done|].
  destruct (stuckAt_cases s) as [Hst | Hfree].
  - assert (Hin' : s + m < n).
    { destruct Hst as (_ & _ & c & Hc & _). apply lookup_lt_Some in Hc.
      unfold n, m, len in *. lia. }
    apply (loop_cycle text pattern badChar s (s - 1)); fold m n; try lia.
    + intros results. by apply step_stuck.
    + intros results. by apply step_stuck.
  - rewrite loop_unfold. fold m n.
    destruct (Z.leb_spec s (n - m)); [|lia].
    destruct (step_forward s (below s)) as (s' & -> & Hlt & Hnone); [lia | done|].
    cbn [fst snd]. rewrite <- (below_step s s') by (done || lia).
    apply IH. split; [lia|].
    destruct (decide (s = s0)) as [-> | Hne]; [done|].
    destruct (Z.le_gt_cases s' s0); [done|].
    destruct (Hnone s0); [lia | apply Hstuck].
Qed.

(** When the loop ends, it has recorded the occurrences. *)
Lemma loop_result fuel : ∀ s results,
  0 ≤ s → loop fuel text pattern badChar s (below s) = Some results →
  results = occurrences text pattern.
Proof.
  induction fuel as [|fuel IH]; intros s results Hs; [done|].
  rewrite loop_unfold. fold m n.
  destruct (Z.leb_spec s (n - m)) as [Hle | Hgt].
  - destruct (stuckAt_cases s) as [Hst | Hfree].
    + intros H. pose proof (loop_stuck s Hst (S fuel) s) as Hnone.
      rewrite loop_unfold in Hnone. fold m n in Hnone.
      destruct (Z.leb_spec s (n - m)); [|lia].
      rewrite Hnone in H by lia. done.
    + destruct (step_forward s (below s)) as (s' & -> & Hlt & Hnone); [lia | done|].
      cbn [fst snd]. rewrite <- (below_step s s') by (done || lia).
      apply IH. lia.
  - intros [= <-]. by apply below_end.
Qed.

(** Without a stuck offset the loop ends within [n - m + 2 - s] passes
    (one pass when [s] is already past [n - m]). *)
Lemma loop_ends : (∀ s, ¬ stuckAt text pattern s) →
  ∀ fuel s, 0 ≤ s → Z.max 0 (n - m + 1 - s) < Z.of_nat fuel →
    loop fuel text pattern badChar s (below s) = Some (occurrences text pattern).
Proof.
  intros Hfree. induction fuel as [|fuel IH]; intros s Hs Hfuel.
  - simpl. lia.
  - rewrite loop_unfold. fold m n.
    destruct (Z.leb_spec s (n - m)) as [Hle | Hgt].
    + destruct (step_forward s (below s)) as (s' & -> & Hlt & Hnone); [lia | done|].
      cbn [fst snd]. rewrite <- (below_step s s') by (done || lia).
      apply IH; lia.
    + f_equal. by apply below_end.
Qed.
End Run.

(** The search returns no array when some occurrence is followed by a
    character that is not in the pattern; otherwise it returns the
    offsets of the occurrences, in ascending order. *)
Theorem boyerMooreSearch_outcome text pattern :
  pattern ≠ [] →
  ((∃ s, stuckAt text pattern s) → ∀ fuel, boyerMooreSearch fuel text pattern = None)
  ∧ ((∀ s, ¬ stuckAt text pattern s) →
       ∀ fuel, (length text < fuel)%nat →
         boyerMooreSearch fuel text pattern = Some (occurrences text pattern))
  ∧ (∀ fuel results, boyerMooreSearch fuel text pattern = Some results →
       results = occurrences text pattern).
Proof.
  intros Hne. unfold boyerMooreSearch.
  assert (Hm : 0 < len pattern) by (by apply m_pos).
  destruct (Z.eqb_spec (len pattern) 0); [lia|].
  split; [|split].
  - intros [s Hs] fuel. apply (loop_stuck text pattern Hne s Hs fuel 0).
    destruct Hs. lia.
  - intros Hfree fuel Hfuel. apply (loop_ends text pattern Hne Hfree fuel 0); [lia|].
    unfold len in *. lia.
  - intros fuel results. by apply (loop_result text pattern Hne fuel 0).
Qed.

(** The search with the empty pattern returns the empty array. *)
Lemma boyerMooreSearch_empty_pattern fuel text :
  boyerMooreSearch fuel text [] = Some [].
Proof. reflexivity. Qed.

Example boyerMooreSearch_abcabcabc :
  boyerMooreSearch 4 (js "abcabcabc") (js "abc") = Some [0; 3; 6]
  ∧ occurrences (js "abcabcabc") (js "abc") = [0; 3; 6].
Proof. vm_compute. done. Qed.

(** C2 on [text = "ax"], [pattern = "a"]: after the match at 0 the
    character that follows is not in the pattern, the shift is [-1],
    [s] goes from 0 to -1 and from there back to 0, and the loop does
    not end whatever the number of passes. *)
Theorem boyerMooreSearch_shift_backwards :
  let text := js "ax" in
  let pattern := js "a" in
  let badChar := fillBadChar pattern 0 ∅ in
  (∀ results, step text pattern badChar 0 results = (-1, results ++ [0]))
  ∧ (∀ results, step text pattern badChar (-1) results = (0, results))
  ∧ ∀ fuel, boyerMooreSearch fuel text pattern = None.
Proof.
  intros text pattern badChar.
  assert (E0 : ∀ results, step text pattern badChar 0 results = (-1, results ++ [0]))
    by done.
  assert (E1 : ∀ results, step text pattern badChar (-1) results = (0, results))
    by done.
  split; [done|]. split; [done|]. intros fuel.
  apply (loop_cycle text pattern badChar 0 (-1)); [done | done | |].
  - intros results. by rewrite E0.
  - intros results. by rewrite E1.
Qed.

(** C1 on [text = "the cat"], [pattern = "the"]: the pattern occurs at
    offset 0 and nowhere else, and the search returns no array: the
    match at 0 is recorded again on every second pass. *)
Theorem boyerMooreSearch_the_cat :
  let text := js "the cat" in
  let pattern := js "the" in
  let badChar := fillBadChar pattern 0 ∅ in
  occurrences text pattern = [0]
  ∧ (∀ fuel, boyerMooreSearch fuel text pattern = None)
  ∧ (∀ results,
       let '(s1, r1) := step text pattern badChar 0 results in
       let '(s2, r2) := step text pattern badChar s1 r1 in
       let '(s3, r3) := step text pattern badChar s2 r2 in
       s2 = 0 ∧ r3 = results ++ [0; 0]).
Proof.
  intros text pattern badChar.
  assert (E0 : ∀ results, step text pattern badChar 0 results = (-1, results ++ [0]))
    by done.
  assert (E1 : ∀ results, step text pattern badChar (-1) results = (0, results))
    by done.
  split; [by vm_compute|]. split.
  - intros fuel.
    apply (loop_cycle text pattern badChar 0 (-1)); [done | done | |].
    + intros results. by rewrite E0.
    + intros results. by rewrite E1.
  - intros results. rewrite E0, E1, E0. split; [done|].
    by rewrite <- app_assoc.
Qed.

End SearchFacts.

(** ** More on the search *)

Section SearchMore.
Import Search.

(** X1. The table built from the pattern has exactly the characters of
    the pattern as keys, each with the last index at which it occurs. *)
Theorem fillBadChar_table (pattern : jstring) (c : ascii) :
  match fillBadChar pattern 0 ∅ !! c with
  | Some v =>
      ∃ k : nat, v = Z.of_nat k ∧ pattern !! k = Some c
                 ∧ ∀ k' : nat, (k < k')%nat → pattern !! k' ≠ Some c
  | None => c ∉ pattern
  end.
Proof.
  destruct (fillBadChar pattern 0 ∅ !! c) as [v|] eqn:E.
  - by apply badChar_Some.
  - by apply badChar_None.
Qed.

(** X2. Whatever the search returns for a non-empty pattern is right:
    the array is strictly ascending and holds exactly the offsets at
    which the pattern occurs. *)
Theorem boyerMooreSearch_sound (fuel : nat) (text pattern : jstring) (results : list Z) :
  pattern ≠ [] →
  boyerMooreSearch fuel text pattern = Some results →
  StronglySorted Z.lt results
  ∧ ∀ i, i ∈ results ↔ 0 ≤ i ≤ len text - len pattern ∧ occursAt text pattern i.
Proof.
  intros Hne H.
  destruct (boyerMooreSearch_outcome text pattern Hne) as (_ & _ & Hres).
  rewrite (Hres _ _ H). destruct (occurrences_spec text pattern). done.
Qed.

Lemma boyerMooreSearch_sound_witness :
  StronglySorted Z.lt [0; 3; 6]
  ∧ ∀ i, i ∈ [0; 3; 6] ↔ 0 ≤ i ≤ len (js "abcabcabc") - len (js "abc")
                          ∧ occursAt (js "abcabcabc") (js "abc") i.
Proof.
  apply (boyerMooreSearch_sound 4 (js "abcabcabc") (js "abc")).
  - vm_compute. congruence.
  - vm_compute. reflexivity.
Defined.

(** X3. For a non-empty pattern the search comes to an end exactly when
    no occurrence is followed, inside the text, by a character that is
    not in the pattern; it then ends within [len text + 1] passes of
    the outer loop, and otherwise no number of passes is enough. *)
Theorem boyerMooreSearch_ends_iff (text pattern : jstring) :
  pattern ≠ [] →
  ((∃ fuel, is_Some (boyerMooreSearch fuel text pattern))
   ↔ ∀ s, ¬ stuckAt text pattern s)
  ∧ ((∀ s, ¬ stuckAt text pattern s) →
       boyerMooreSearch (S (length text)) text pattern
         = Some (occurrences text pattern))
  ∧ (∀ s, stuckAt text pattern s →
       ∀ fuel, boyerMooreSearch fuel text pattern = None).
Proof.
  intros Hne.
  destruct (boyerMooreSearch_outcome text pattern Hne) as (Hstuck & Hfree & _).
  split; [|split].
  - split.
    + intros [fuel [r Hr]] s Hs. rewrite Hstuck in Hr; [done | by exists s].
    + intros H. exists (S (length text)). rewrite Hfree; [done | done | lia].
  - intros H. apply Hfree; [done | lia].
  - intros s Hs. apply Hstuck. by exists s.
Qed.

Lemma boyerMooreSearch_ends_iff_witness :
  boyerMooreSearch 100 (js "hello world") (js "lo") = None.
Proof.
  apply (boyerMooreSearch_ends_iff (js "hello world") (js "lo")) with (s := 3).
  - vm_compute. congruence.
  - split; [lia|]. split; [by vm_compute|].
    exists " "%char. split; [by vm_compute|].
    apply (bool_decide_unpack _). by vm_compute.
Defined.

Lemma stuckAt_char text pattern s :
  stuckAt text pattern s → ∃ c, c ∈ text ∧ c ∉ pattern.
Proof.
  intros (_ & _ & c & Hc & Hnot). exists c. split; [|done].
  by eapply list_elem_of_lookup_2.
Qed.

(** X4. Two cases in which the search does return, with all the
    occurrences: when every character of the text occurs in the
    pattern, and when the pattern does not occur in the text (the
    result is then empty). *)
Theorem boyerMooreSearch_returns (text pattern : jstring) :
  pattern ≠ [] →
  ((∀ c, c ∈ text → c ∈ pattern) →
     boyerMooreSearch (S (length text)) text pattern
       = Some (occurrences text pattern))
  ∧ ((∀ i, 0 ≤ i → ¬ occursAt text pattern i) →
     boyerMooreSearch (S (length text)) text pattern = Some []).
Proof.
  intros Hne.
  destruct (boyerMooreSearch_outcome text pattern Hne) as (_ & Hfree & _).
  split.
  - intros Hall. apply Hfree; [|lia].
    intros s Hs. apply stuckAt_char in Hs as (c & Hc & Hnot). by apply Hnot, Hall.
  - intros Hnone.
    assert (E : occurrences text pattern = []).
    { destruct (occurrences text pattern) as [|i l] eqn:E; [done|].
      assert (Hi : i ∈ occurrences text pattern) by (rewrite E; constructor).
      apply occurrences_spec in Hi as [Hi Hocc]. destruct (Hnone i); [lia | done]. }
    rewrite <- E. apply Hfree; [|lia].
    intros s (Hs & Hocc & _). by apply (Hnone s).
Qed.

Lemma boyerMooreSearch_returns_witness :
  boyerMooreSearch 9 (js "abababab") (js "abab") = Some [0; 2; 4].
Proof.
  apply (boyerMooreSearch_returns (js "abababab") (js "abab")).
  - vm_compute. congruence.
  - apply (proj1 (Forall_forall (λ c, c ∈ js "abab") (js "abababab"))).
    apply (bool_decide_unpack _). by vm_compute.
Defined.

End SearchMore.

(** ** More on the trie *)

Section TrieMore.
Import Trie.

(** X5. After [insert(word)] the trie contains [word], and it contains
    any [w] exactly when it contained it before or [w] is [word] up to
    letter case: an insertion adds one word and removes none. *)
Theorem insert_contains (t : Trie) (word w : jstring) :
  contains (insert t word) word = true
  ∧ (contains (insert t word) w = true
     ↔ contains t w = true ∨ toLowerCase w = toLowerCase word).
Proof.
  rewrite !contains_insert. split.
  - rewrite bool_decide_eq_true_2 by done. apply orb_true_r.
  - by rewrite orb_true_iff, bool_decide_eq_true.
Qed.

Lemma replaceProp_same {V} (o : list (ascii * V)) k v :
  getProp o k = Some v → replaceProp o k v = o.
Proof.
  induction o as [|[k' v'] o IH]; simpl; [done|].
  destruct (decide (k' = k)) as [->|Hne]; [by intros [= ->]|].
  intros H. by rewrite IH.
Qed.

Lemma assignProp_again {V} (o : list (ascii * V)) k v :
  assignProp (assignProp o k v) k v = assignProp o k v.
Proof.
  assert (H : getProp (assignProp o k v) k = Some v).
  { rewrite getProp_assignProp. by destruct (decide (k = k)). }
  unfold assignProp at 1. rewrite H. by apply replaceProp_same.
Qed.

Lemma insertFrom_idemp word : ∀ node,
  insertFrom (insertFrom node word) word = insertFrom node word.
Proof.
  induction word as [|c rest IH]; intros node; [done|].
  cbn [insertFrom children isEndOfWord].
  rewrite getProp_assignProp. destruct (decide (c = c)); [|done].
  by rewrite IH, assignProp_again.
Qed.

(** X6. Inserting a word a second time, in any letter case, changes
    nothing: the trie is the same object structure as after the first
    insertion. *)
Theorem insert_idempotent (t : Trie) (word word' : jstring) :
  toLowerCase word' = toLowerCase word →
  insert (insert t word) word' = insert t word.
Proof.
  intros E. unfold insert. cbn [root]. rewrite E. by rewrite insertFrom_idemp.
Qed.

Lemma insert_idempotent_witness :
  insert (insert suggestionTrie (js "Rocq")) (js "ROCQ") = insert suggestionTrie (js "Rocq").
Proof. apply insert_idempotent. by vm_compute. Defined.

Lemma foldl_concat_bind {A B} (F : B → list A) (l : list B) : ∀ init,
  foldl (λ results p, results ++ F p) init l = init ++ (l ≫= F).
Proof.
  induction l as [|x l IH]; intros init; simpl.
  - by rewrite app_nil_r.
  - by rewrite IH, <- app_assoc.
Qed.

Lemma _findAllWords_unfold cap node cur :
  _findAllWords cap node cur =
    take cap ((if isEndOfWord node then [cur] else [])
              ++ (children node ≫= λ p, _findAllWords cap p.2 (cur ++ [p.1]))).
Proof. destruct node as [o e]. simpl. by rewrite foldl_concat_bind. Qed.

Lemma containsFrom_descend path : ∀ node rest,
  containsFrom node (path ++ rest) = true →
  ∃ node', descend node path = Some node' ∧ containsFrom node' rest = true.
Proof.
  induction path as [|c path IH]; intros node rest; simpl.
  - intros H. by exists node.
  - destruct (getProp (children node) c) as [child|]; [apply IH | done].
Qed.

(** X7. When the prefix itself is a word of the trie, it is the first
    suggestion (the cap being at least 1). *)
Theorem find_exact_first (cap : nat) (t : Trie) (prefix : jstring) :
  (0 < cap)%nat → contains t prefix = true →
  head (find cap t prefix) = Some (toLowerCase prefix).
Proof.
  intros Hcap Hc. unfold contains in Hc.
  rewrite <- (app_nil_r (toLowerCase prefix)) in Hc.
  apply containsFrom_descend in Hc as (node & Hd & He).
  unfold find. rewrite Hd, _findAllWords_unfold. simpl in He. rewrite He.
  destruct cap; [lia | done].
Qed.

Lemma find_exact_first_witness :
  head (find cap suggestionTrie (js "The")) = Some (js "the").
Proof.
  apply (find_exact_first cap suggestionTrie (js "The")).
  - unfold cap. lia.
  - by vm_compute.
Defined.

Lemma getProp_elem {V} (o : list (ascii * V)) k v :
  getProp o k = Some v → (k, v) ∈ o.
Proof.
  induction o as [|[k' v'] o IH]; simpl; [done|].
  destruct (decide (k' = k)) as [->|]; [intros [= ->]; constructor|].
  intros H. constructor. by apply IH.
Qed.

Lemma length_bind_elem {A B} (F : B → list A) (l : list B) p :
  p ∈ l → (length (F p) ≤ length (l ≫= F))%nat.
Proof.
  induction l as [|x l IH]; intros H; [by inversion H|].
  rewrite bind_cons, length_app. apply elem_of_cons in H as [-> | H]; [lia|].
  specialize (IH H). lia.
Qed.

(** A node whose words fit under the cap gives them all. *)
Lemma _findAllWords_complete cap node : ∀ cur rest,
  (length (_findAllWords cap node cur) < cap)%nat →
  containsFrom node rest = true →
  cur ++ rest ∈ _findAllWords cap node cur.
Proof.
  induction node as [o e IH] using TrieNode_ind. intros cur rest Hlen Hc.
  rewrite _findAllWords_unfold in *. cbn [children isEndOfWord] in *.
  set (F := λ p : ascii * TrieNode, _findAllWords cap p.2 (cur ++ [p.1])) in *.
  rewrite length_take in Hlen.
  assert (Hall : (length ((if e then [cur] else []) ++ (o ≫= F)) < cap)%nat) by lia.
  rewrite take_ge by lia. rewrite length_app in Hall.
  destruct rest as [|k rest]; simpl in Hc.
  - rewrite Hc, app_nil_r. apply elem_of_app. left. constructor.
  - destruct (getProp o k) as [child|] eqn:G; [|done].
    apply getProp_elem in G. apply elem_of_app. right.
    apply list_elem_of_bind. exists (k, child). split; [|done].
    unfold F. simpl. replace (cur ++ k :: rest) with ((cur ++ [k]) ++ rest)
      by (by rewrite <- app_assoc).
    rewrite Forall_forall in IH. apply (IH _ G); [|done].
    pose proof (length_bind_elem F o _ G) as Hle. unfold F in Hle at 1.
    simpl in Hle |- *. lia.
Qed.

(** X8. When [find] returns fewer suggestions than the cap, none is
    missing: every inserted word that begins with the prefix, letter
    case apart, is in the result in lower case. *)
Theorem find_complete (cap : nat) (words : list jstring) (prefix u : jstring) :
  let t := insertAll newTrie words in
  (length (find cap t prefix) < cap)%nat →
  u ∈ words → startsWithCI prefix u →
  toLowerCase u ∈ find cap t prefix.
Proof.
  intros t Hlen Hu [rest Hrest].
  assert (Hc : containsFrom (root t) (toLowerCase prefix ++ rest) = true).
  { rewrite <- Hrest. apply containsFrom_insertAll. right. by exists u. }
  apply containsFrom_descend in Hc as (node & Hd & Hc).
  unfold find in *. rewrite Hd in *. rewrite Hrest.
  by apply _findAllWords_complete.
Qed.

Lemma find_complete_witness :
  js "editor" ∈ find cap suggestionTrie (js "ED").
Proof.
  apply (find_complete cap keywords (js "ED") (js "editor")).
  - vm_compute. lia.
  - apply (bool_decide_unpack _). by vm_compute.
  - unfold startsWithCI. apply (bool_decide_unpack _). by vm_compute.
Defined.

(** A node with distinct property names gives no word twice. *)
Lemma NoDup__findAllWords cap node : ∀ cur,
  wf node → NoDup (_findAllWords cap node cur).
Proof.
  induction node as [o e IH] using TrieNode_ind. intros cur Hwf.
  rewrite _findAllWords_unfold. cbn [children isEndOfWord].
  eapply sublist_NoDup; [|apply sublist_take].
  inversion Hwf as [o' e' ND Ho]; subst.
  rewrite Forall_forall in IH, Ho.
  assert (Hshape : ∀ p w, p ∈ o → w ∈ _findAllWords cap p.2 (cur ++ [p.1]) →
            ∃ rest, w = cur ++ p.1 :: rest).
  { intros p w Hp Hw. apply _findAllWords_elem in Hw as (rest & -> & _); [|by apply Ho].
    exists rest. by rewrite <- app_assoc. }
  apply NoDup_app. split; [|split].
  - destruct e; [apply NoDup_singleton | constructor].
  - intros w Hw Hw'. apply list_elem_of_bind in Hw' as (p & Hw' & Hp).
    destruct (Hshape _ _ Hp Hw') as [rest ->].
    destruct e; [|by inversion Hw]. apply list_elem_of_singleton in Hw.
    apply (f_equal length) in Hw. rewrite length_app in Hw. simpl in Hw. lia.
  - apply NoDup_bind.
    + intros [k1 c1] [k2 c2] w H1 H2 Hw1 Hw2.
      destruct (Hshape _ _ H1 Hw1) as [r1 E1].
      destruct (Hshape _ _ H2 Hw2) as [r2 E2]. simpl in *.
      rewrite E1 in E2. apply app_inv_head in E2. injection E2 as -> _.
      pose proof (elem_getProp o k2 c1 ND H1) as G1.
      pose proof (elem_getProp o k2 c2 ND H2) as G2. congruence.
    + intros p Hp. by apply IH, Ho.
    + by apply (NoDup_fmap_1 fst).
Qed.

Lemma NoDup_find cap words prefix :
  NoDup (find cap (insertAll newTrie words) prefix).
Proof.
  unfold find.
  destruct (descend _ _) as [node|] eqn:E; [|constructor].
  apply NoDup__findAllWords.
  assert (Hwf : wf (root (insertAll newTrie words))) by apply wf_insertAll, wf_new.
  revert E Hwf. generalize (root (insertAll newTrie words)).
  induction (toLowerCase prefix) as [|c path IH]; intros n; simpl.
  - by intros [= ->].
  - destruct (getProp (children n) c) eqn:G; [|done].
    intros E Hn. eapply IH; [done|]. by eapply wf_getProp.
Qed.

(** X9. On a trie built by insertions, [find] gives no suggestion
    twice. *)
Theorem find_NoDup (cap : nat) (words : list jstring) (prefix : jstring) :
  NoDup (find cap (insertAll newTrie words) prefix).
Proof. apply NoDup_find. Qed.

End TrieMore.

(** ** More on the token pattern, the split and the learning step *)

Section TokenMore.
Import Regex Server.

(** X10. The pattern matches at a position exactly when a whole word
    of letters starts there: the character before is no letter, digit
    or underscore, the match is the longest run of letters, it has at
    least three of them, and the character after is no letter, digit
    or underscore either. *)
Theorem matchAt_whole_word (prev : option ascii) (s : jstring) (n : nat) :
  matchAt prev s = Some n
  ↔ isWordChar prev = false ∧ n = letters s ∧ (3 ≤ n)%nat
    ∧ isWordChar (s !! n) = false.
Proof.
  unfold matchAt, boundary. split.
  - destruct (xorb (isWordChar prev) (isWordChar (head s))) eqn:B; [|done].
    intros H. apply find_some in H as [Hin Hb].
    apply in_rev, in_seq in Hin.
    destruct (letters_lookup s (n - 1)) as (c & Hc & Ha); [lia|].
    rewrite Hc, (isWordChar_alpha _ Ha) in Hb. simpl in Hb.
    apply negb_true_iff in Hb.
    destruct (letters_lookup s 0) as (c0 & Hc0 & Ha0); [lia|].
    rewrite head_lookup, Hc0, (isWordChar_alpha _ Ha0) in B.
    destruct (isWordChar prev); [done|].
    split; [done|]. split; [|by split; [lia|]].
    destruct (decide (n = letters s)) as [|Hne]; [done|].
    destruct (letters_lookup s n) as (c' & Hc' & Ha'); [lia|].
    by rewrite Hc', (isWordChar_alpha _ Ha') in Hb.
  - intros (Hp & -> & H3 & Hn). rewrite Hp.
    destruct (letters_lookup s 0) as (c0 & Hc0 & Ha0); [lia|].
    rewrite head_lookup, Hc0, (isWordChar_alpha _ Ha0). cbn [xorb].
    replace (letters s - 2)%nat with (S (letters s - 3)) by lia.
    rewrite seq_S, rev_unit. cbn [List.find].
    replace (3 + (letters s - 3))%nat with (letters s) by lia.
    destruct (letters_lookup s (letters s - 1)) as (c & Hc & Ha); [lia|].
    by rewrite Hc, (isWordChar_alpha _ Ha), Hn.
Qed.

Lemma splitFrom_spec (text : jstring) : ∀ piece inRun,
  Forall (λ c, isSeparator c = false) piece →
  (inRun = true → piece = []) →
  let pieces := splitFrom piece inRun text in
  Forall (Forall (λ c, isSeparator c = false)) pieces
  ∧ concat pieces = piece ++ filter (λ c, isSeparator c = false) text
  ∧ ∀ i, (S i < length pieces)%nat → pieces !! i = Some [] →
      i = 0%nat ∧ inRun = false ∧ piece = [].
Proof.
  induction text as [|c text IH]; intros piece inRun Hp Hrun; simpl.
  - split; [by constructor|]. split; [by rewrite !app_nil_r|]. intros i Hi. lia.
  - destruct (isSeparator c) eqn:E.
    + rewrite filter_cons_False by (by rewrite E).
      destruct (IH [] true) as (H1 & H2 & H3); [constructor | done|].
      destruct inRun.
      * rewrite (Hrun eq_refl). split; [done|]. split; [done|].
        intros i Hi Hi'. by destruct (H3 i Hi Hi') as (_ & ? & _).
      * split; [by constructor|]. split; [simpl; by rewrite H2|].
        intros [|i] Hi Hi'; simpl in *.
        -- by injection Hi' as ->.
        -- destruct (H3 i) as (_ & ? & _); [lia | done | done].
    + rewrite filter_cons_True by done.
      destruct (IH (piece ++ [c]) false) as (H1 & H2 & H3); [|done|].
      { apply Forall_app. split; [done|]. by repeat constructor. }
      split; [done|]. split; [by rewrite H2, <- app_assoc|].
      intros i Hi Hi'. destruct (H3 i Hi Hi') as (_ & _ & H).
      by destruct piece.
Qed.

Lemma splitFrom_nonempty text : ∀ piece inRun, splitFrom piece inRun text ≠ [].
Proof.
  induction text as [|c text IH]; intros piece inRun; simpl; [done|].
  destruct (isSeparator c); [destruct inRun|]; [apply IH | done | apply IH].
Qed.

(** X11. The pieces of the split contain no separator, their
    concatenation is the text without its separators, there is at
    least one piece, and only the first and the last piece can be
    empty. *)
Theorem split_spec (text : jstring) :
  split text ≠ []
  ∧ Forall (Forall (λ c, isSeparator c = false)) (split text)
  ∧ concat (split text) = filter (λ c, isSeparator c = false) text
  ∧ ∀ i, (0 < i)%nat → (S i < length (split text))%nat → split text !! i ≠ Some [].
Proof.
  split; [apply splitFrom_nonempty|].
  destruct (splitFrom_spec text [] false) as (H1 & H2 & H3); [constructor | done|].
  split; [done|]. split; [done|].
  intros i Hi Hlt Hi'. destruct (H3 i Hlt Hi') as [-> _]. lia.
Qed.

Lemma contains_learn (trie : Trie.Trie) (text w : jstring) :
  Trie.contains (learn trie text) w = true
  ↔ Trie.contains trie w = true
    ∨ ∃ piece, piece ∈ split text ∧ 2 < len piece
               ∧ toLowerCase piece = toLowerCase w.
Proof.
  unfold learn. generalize (split text) as pieces. intros pieces. revert trie.
  induction pieces as [|p pieces IH]; intros trie; simpl.
  - split; [by left | intros [H | (p & Hp & _)]; [done | by inversion Hp]].
  - rewrite IH. destruct (Z.ltb_spec 2 (len p)) as [Hlen | Hlen].
    + rewrite contains_insert, orb_true_iff, bool_decide_eq_true, toLowerCase_idemp.
      split.
      * intros [[H | H] | (q & Hq & Hl & E)]; [by left | right | right].
        -- exists p. split; [constructor | done].
        -- exists q. split; [by constructor | done].
      * intros [H | (q & Hq & Hl & E)]; [by left; left|].
        apply elem_of_cons in Hq as [-> | Hq]; [by left; right|].
        right. by exists q.
    + split.
      * intros [H | (q & Hq & Hl & E)]; [by left | right].
        exists q. split; [by constructor | done].
      * intros [H | (q & Hq & Hl & E)]; [by left|].
        apply elem_of_cons in Hq as [-> | Hq]; [lia|].
        right. by exists q.
Qed.

(** X12. After the learning step the trie contains a word exactly
    when it contained it before or the word is, letter case apart, a
    piece of the text longer than two characters. *)
Theorem learn_contains (trie : Trie.Trie) (text w : jstring) :
  Trie.contains (learn trie text) w = true
  ↔ Trie.contains trie w = true
    ∨ ∃ piece, piece ∈ split text ∧ 2 < len piece
               ∧ toLowerCase piece = toLowerCase w.
Proof. apply contains_learn. Qed.

Lemma contains_serve (st : state) (rs : list request) (w : jstring) :
  Trie.contains (suggestionTrie st) w = true →
  Trie.contains (suggestionTrie (serve st rs)) w = true.
Proof.
  intros Hw. induction rs as [|r rs IH] using rev_ind; [done|].
  unfold serve in *. rewrite foldl_snoc.
  set (st1 := foldl _ st rs) in *.
  destruct r as [n | n oldName | n | n text | n | n
                | fuel text pattern | prefix | text];
    cbn [handle fst]; try done.
  - unfold postFiles. by repeat case_match.
  - unfold postUpdate. destruct (files st1 !! n); [|done].
    case_bool_decide; [|done]. cbn [fst suggestionTrie].
    apply contains_learn. by left.
  - unfold postUndo. destruct (files st1 !! n); [|done].
    by destruct (UndoRedoManager.undo _ _).
  - unfold postRedo. destruct (files st1 !! n); [|done].
    by destruct (UndoRedoManager.redo _ _).
Qed.

(** X13. A word learned from an update is never reported by a spell
    check afterwards, whatever requests come in between and in
    whatever letter case the word is written. *)
Theorem learned_word_not_reported (st : state) (name text : jstring) (f : file)
    (piece w : jstring) (rs : list request) (text' : jstring)
    (wrongWords : list jstring) :
  files st !! name = Some f →
  Rope.toString (content f) ≠ text →
  piece ∈ split text → 2 < len piece →
  toLowerCase w = toLowerCase piece →
  postCheckSpelling (serve (postUpdate st name text).1 rs) text'
    = WrongWords wrongWords →
  w ∉ wrongWords.
Proof.
  intros Hf Hne Hp Hlen Hw.
  assert (Hc : Trie.contains
                 (suggestionTrie (serve (postUpdate st name text).1 rs)) w = true).
  { apply contains_serve. unfold postUpdate. rewrite Hf.
    rewrite bool_decide_eq_true_2 by done. cbn [fst suggestionTrie].
    apply contains_learn. right. by exists piece. }
  unfold postCheckSpelling. intros [= <-] Hin.
  apply (proj1 (proj2 (setOf_spec _) w)) in Hin.
  apply list_elem_of_filter in Hin as [Hc' _]. congruence.
Qed.

Lemma learned_word_not_reported_witness :
  2 < len (js "edittor") ∧ js "EDITTOR" ∉ [js "great"].
Proof.
  split; [by vm_compute|].
  apply (learned_word_not_reported initial (js "example.txt")
           (js "My edittor, again.")
           (mkFile (Rope.newRope (js "Welcome to the Editor." ++ [newline]
                                    ++ js "Start typing to see the magic."))
                   UndoRedoManager.new)
           (js "edittor") (js "EDITTOR")
           [PostUpdate (js "example.txt") (js "Something else.");
            PostUndo (js "example.txt"); DeleteFile (js "example.txt")]
           (js "The EDITTOR is great")).
  - by vm_compute.
  - by vm_compute.
  - apply (bool_decide_unpack _). by vm_compute.
  - by vm_compute.
  - by vm_compute.
  - by vm_compute.
Defined.

End TokenMore.

(** ** The routes on files *)

Section RouteFacts.
Import UndoRedoManager Server.

Lemma saveState_last h text :
  maxSize h = 50 → last (undoStack (saveState h text)) = Some text.
Proof.
  intros Hm. destruct (decide (last (undoStack h) = Some text)) as [E | E].
  - by rewrite saveState_same.
  - rewrite saveState_push by done. cbn [undoStack]. rewrite Hm, length_app.
    destruct (Z.ltb_spec 50 (Z.of_nat (length (undoStack h) + length [text]))).
    + destruct (undoStack h) as [|a l]; [simpl in *; lia|]. simpl. apply last_snoc.
    + apply last_snoc.
Qed.

Lemma last_Some_snoc {A} (l : list A) x : last l = Some x → ∃ l', l = l' ++ [x].
Proof.
  destruct (snoc_cases l) as [-> | (l' & y & ->)]; [done|].
  rewrite last_snoc. intros [= ->]. by exists l'.
Qed.

(** X14. An update that changes the text, then an undo, then a redo:
    the undo gives back the text as it was before the update and the
    redo the text of the update. *)
Theorem update_undo_redo (st : state) (name text : jstring) (f : file) :
  files st !! name = Some f →
  maxSize (history f) = 50 →
  Rope.toString (content f) ≠ text →
  let st1 := (postUpdate st name text).1 in
  let st2 := (postUndo st1 name).1 in
  let st3 := (postRedo st2 name).1 in
  getFile st1 name = Content text
  ∧ (postUndo st1 name).2 = Content (Rope.toString (content f))
  ∧ getFile st2 name = Content (Rope.toString (content f))
  ∧ (postRedo st2 name).2 = Content text
  ∧ getFile st3 name = Content text
  ∧ files st3 !! name = files st1 !! name.
Proof.
  intros Hf Hm Hne st1 st2 st3. set (old := Rope.toString (content f)) in *.
  set (h1 := saveState (history f) old).
  destruct (last_Some_snoc (undoStack h1) old) as [u Hu];
    [by apply saveState_last|].
  assert (E1 : files st1 !! name = Some (mkFile (Rope.newRope text) h1)).
  { subst st1. unfold postUpdate. rewrite Hf. fold old.
    rewrite bool_decide_eq_true_2 by done. apply lookup_insert_eq. }
  assert (U : postUndo st1 name =
    (mkState (<[name := mkFile (Rope.newRope old)
                          (mk u (redoStack h1 ++ [text]) (maxSize h1))]> (files st1))
             (suggestionTrie st1), Content old)).
  { unfold postUndo. rewrite E1. cbn [history content].
    rewrite toString_newRope, (undo_snoc _ _ _ _ Hu). done. }
  assert (E2 : files st2 !! name =
    Some (mkFile (Rope.newRope old) (mk u (redoStack h1 ++ [text]) (maxSize h1)))).
  { subst st2. rewrite U. apply lookup_insert_eq. }
  assert (R : postRedo st2 name =
    (mkState (<[name := mkFile (Rope.newRope text)
                          (mk (u ++ [old]) (redoStack h1) (maxSize h1))]> (files st2))
             (suggestionTrie st2), Content text)).
  { unfold postRedo. rewrite E2. cbn [history content].
    rewrite toString_newRope.
    rewrite (redo_snoc _ _ (redoStack h1) text) by done. done. }
  assert (E3 : files st3 !! name = files st1 !! name).
  { subst st3. rewrite R. cbn [fst files]. rewrite lookup_insert_eq, E1, <- Hu.
    by destruct h1. }
  unfold getFile. rewrite E3, E1, E2, U, R. done.
Qed.

Lemma update_undo_redo_witness :
  (postUndo (postUpdate initial (js "example.txt") (js "Hello")).1 (js "example.txt")).2
  = Content (js "Welcome to the Editor." ++ [newline]
               ++ js "Start typing to see the magic.").
Proof.
  apply (update_undo_redo initial (js "example.txt") (js "Hello")
           (mkFile (Rope.newRope (js "Welcome to the Editor." ++ [newline]
                                    ++ js "Start typing to see the magic."))
                   UndoRedoManager.new)).
  - by vm_compute.
  - by vm_compute.
  - by vm_compute.
Defined.

Lemma timeline_kept (st : state) (name : jstring) (f : file) :
  files st !! name = Some f →
  (∃ f', files (postUndo st name).1 !! name = Some f' ∧ timeline f' = timeline f)
  ∧ (∃ f', files (postRedo st name).1 !! name = Some f' ∧ timeline f' = timeline f).
Proof.
  intros Hf. split.
  - unfold postUndo. rewrite Hf.
    destruct (snoc_cases (undoStack (history f))) as [E | (u & p & E)].
    + rewrite (undo_empty _ _ E). eexists. split; [apply lookup_insert_eq|].
      unfold timeline. cbn [history content]. by rewrite toString_newRope.
    + rewrite (undo_snoc _ _ _ _ E). eexists. split; [apply lookup_insert_eq|].
      unfold timeline. cbn [history content undoStack redoStack].
      rewrite toString_newRope, E, reverse_snoc, <- !app_assoc. done.
  - unfold postRedo. rewrite Hf.
    destruct (snoc_cases (redoStack (history f))) as [E | (r & n & E)].
    + rewrite (redo_empty _ _ E). eexists. split; [apply lookup_insert_eq|].
      unfold timeline. cbn [history content]. by rewrite toString_newRope.
    + rewrite (redo_snoc _ _ _ _ E). eexists. split; [apply lookup_insert_eq|].
      unfold timeline. cbn [history content undoStack redoStack].
      rewrite toString_newRope, E, reverse_snoc, <- !app_assoc. done.
Qed.

(** X15. The undo and redo routes never change the timeline of a file
    (the snapshots to undo, the current text, the snapshots to redo):
    they only move the current position in it. *)
Theorem undo_redo_keep_timeline (st : state) (name : jstring) (f : file) :
  files st !! name = Some f →
  (∃ f', files (postUndo st name).1 !! name = Some f' ∧ timeline f' = timeline f)
  ∧ (∃ f', files (postRedo st name).1 !! name = Some f' ∧ timeline f' = timeline f).
Proof. apply timeline_kept. Qed.

Lemma undo_redo_keep_timeline_witness :
  ∃ f', files (postUndo initial (js "example.txt")).1 !! js "example.txt" = Some f'
        ∧ timeline f' = [js "Welcome to the Editor." ++ [newline]
                           ++ js "Start typing to see the magic."].
Proof.
  apply (undo_redo_keep_timeline initial (js "example.txt")
           (mkFile (Rope.newRope (js "Welcome to the Editor." ++ [newline]
                                    ++ js "Start typing to see the magic."))
                   UndoRedoManager.new)).
  by vm_compute.
Defined.

End RouteFacts.

Section InvariantFacts.
Import UndoRedoManager Server.

Lemma noRepeat_app_l l1 l2 : noRepeat (l1 ++ l2) → noRepeat l1.
Proof.
  induction l1 as [|x l1 IH]; [done|]. simpl. intros [H1 H2].
  split; [by destruct l1 | by apply IH].
Qed.

Lemma noRepeat_snoc l x y : noRepeat (l ++ [x]) → x ≠ y → noRepeat (l ++ [x; y]).
Proof.
  induction l as [|a l IH]; simpl; [by intros _ ?|].
  intros [H1 H2] Hne. split; [by destruct l | by apply IH].
Qed.

Lemma noRepeat_tail l : noRepeat l → noRepeat (tail l).
Proof. destruct l; simpl; tauto. Qed.

Lemma noRepeat_mid l1 x y l2 : noRepeat (l1 ++ x :: y :: l2) → x ≠ y.
Proof.
  induction l1 as [|a l1 IH]; simpl; [tauto|]. intros [_ H]. by apply IH.
Qed.

Lemma noRepeat_top_differs f :
  noRepeat (timeline f) →
  last (undoStack (history f)) ≠ Some (Rope.toString (content f))
  ∧ last (redoStack (history f)) ≠ Some (Rope.toString (content f)).
Proof.
  unfold timeline. intros H. split; intros E.
  - apply last_Some_snoc in E as [u E]. rewrite E, <- app_assoc in H.
    by apply noRepeat_mid in H.
  - apply last_Some_snoc in E as [r E].
    rewrite E, reverse_snoc in H.
    change (?a ++ [?c] ++ ?x :: ?l) with (a ++ c :: x :: l) in H.
    by apply noRepeat_mid in H.
Qed.

(** The file an update that changes the text leaves. *)
Lemma fileOk_update f text :
  fileOk f → Rope.toString (content f) ≠ text →
  fileOk (mkFile (Rope.newRope text)
            (saveState (history f) (Rope.toString (content f)))).
Proof.
  intros [Hb Hn] Hne. set (old := Rope.toString (content f)) in *.
  split; [apply (bounded_run _ (SaveState old) Hb)|].
  destruct (noRepeat_top_differs f Hn) as [Htop _]. fold old in Htop.
  unfold timeline. cbn [history content]. rewrite toString_newRope.
  rewrite (saveState_push _ _ Htop). cbn [undoStack redoStack].
  rewrite reverse_nil, app_nil_r.
  assert (Hall : noRepeat ((undoStack (history f) ++ [old]) ++ [text])).
  { rewrite <- app_assoc. apply noRepeat_snoc; [|done].
    unfold timeline in Hn. fold old in Hn. rewrite app_assoc in Hn.
    by apply noRepeat_app_l in Hn. }
  case_match; [|done].
  apply noRepeat_tail in Hall.
  by destruct (undoStack (history f)).
Qed.

Lemma stateOk_handle st r : stateOk st → stateOk (handle st r).1.
Proof.
  intros Hok. destruct r as [name | name oldName | name | name text | name | name
                            | fuel text pattern | prefix | text];
    cbn [handle fst]; try done.
  - unfold postFiles.
    assert (Hnew : stateOk (mkState
              (<[name := mkFile (Rope.newRope []) UndoRedoManager.new]> (files st))
              (suggestionTrie st))).
    { intros n f. cbn [files]. rewrite lookup_insert_Some.
      intros [[_ <-] | [_ H]]; [|by eapply Hok].
      split; [apply bounded_new | by vm_compute]. }
    destruct oldName as [old|]; [|done].
    case_bool_decide as Hold; [|done].
    destruct (files st !! old) as [f|] eqn:E; [|done].
    intros n f'. cbn [fst files]. rewrite lookup_delete_Some, lookup_insert_Some.
    intros [_ [[_ <-] | [_ Hn]]]; by eapply Hok.
  - intros n f. cbn [deleteFile fst files]. rewrite lookup_delete_Some.
    intros [_ H]. by eapply Hok.
  - unfold postUpdate. destruct (files st !! name) as [f|] eqn:E; [|done].
    case_bool_decide as Hne; [|done].
    intros n f'. cbn [fst files]. rewrite lookup_insert_Some.
    intros [[_ <-] | [_ H]]; [|by eapply Hok].
    apply fileOk_update; [by eapply Hok | done].
  - destruct (files st !! name) as [f|] eqn:E;
      [|by unfold postUndo; rewrite E].
    destruct (timeline_kept st name f E) as [(f' & Hf' & Ht) _].
    intros n g Hg. destruct (decide (n = name)) as [-> | Hn].
    + rewrite Hf' in Hg. injection Hg as <-. destruct (Hok _ _ E) as [Hb Hnr].
      split; [|by rewrite Ht].
      revert Hf'. unfold postUndo. rewrite E.
      pose proof (bounded_run _ (Undo (Rope.toString (content f))) Hb) as Hb'.
      simpl in Hb'. destruct (undo _ _) as [h prev]. cbn [fst files].
      rewrite lookup_insert_eq. by intros [= <-].
    + revert Hg. unfold postUndo. rewrite E. destruct (undo _ _) as [h prev].
      cbn [fst files]. rewrite lookup_insert_ne by done. by apply Hok.
  - destruct (files st !! name) as [f|] eqn:E;
      [|by unfold postRedo; rewrite E].
    destruct (timeline_kept st name f E) as [_ (f' & Hf' & Ht)].
    intros n g Hg. destruct (decide (n = name)) as [-> | Hn].
    + rewrite Hf' in Hg. injection Hg as <-. destruct (Hok _ _ E) as [Hb Hnr].
      split; [|by rewrite Ht].
      revert Hf'. unfold postRedo. rewrite E.
      pose proof (bounded_run _ (Redo (Rope.toString (content f))) Hb) as Hb'.
      simpl in Hb'. destruct (redo _ _) as [h next]. cbn [fst files].
      rewrite lookup_insert_eq. by intros [= <-].
    + revert Hg. unfold postRedo. rewrite E. destruct (redo _ _) as [h next].
      cbn [fst files]. rewrite lookup_insert_ne by done. by apply Hok.
Qed.

Lemma stateOk_initial : stateOk initial.
Proof.
  intros n f. unfold initial. cbn [files]. rewrite lookup_singleton_Some.
  intros [_ <-]. split; [apply bounded_new | by vm_compute].
Qed.

Lemma stateOk_serve st rs : stateOk st → stateOk (serve st rs).
Proof.
  intros Hok. induction rs as [|r rs IH] using rev_ind; [done|].
  unfold serve in *. rewrite foldl_snoc. by apply stateOk_handle.
Qed.

(** X16. After any sequence of requests with string texts and file
    names that are names of no inherited property, in every file the
    two stacks hold at most 50 snapshots between them and no two
    neighbours of the timeline are equal: the snapshot on top of
    either stack is never the current text. *)
Theorem serve_invariant (rs : list request) (name : jstring) (f : file) :
  Forall ordinaryRequest rs →
  files (serve initial rs) !! name = Some f →
  (length (undoStack (history f)) + length (redoStack (history f)) ≤ 50)%nat
  ∧ noRepeat (timeline f)
  ∧ last (undoStack (history f)) ≠ Some (Rope.toString (content f))
  ∧ last (redoStack (history f)) ≠ Some (Rope.toString (content f)).
Proof.
  intros _ Hf.
  destruct (stateOk_serve initial rs stateOk_initial _ _ Hf) as [[_ Hb] Hn].
  split; [done|]. split; [done|]. by apply noRepeat_top_differs.
Qed.

Lemma serve_invariant_witness :
  noRepeat (timeline (mkFile (Rope.newRope (js "Hello"))
                        (mk [js "Welcome to the Editor." ++ [newline]
                               ++ js "Start typing to see the magic."] [] 50))).
Proof.
  apply (serve_invariant [PostUpdate (js "example.txt") (js "Hello")]
           (js "example.txt")).
  - apply (bool_decide_unpack _). by vm_compute.
  - by vm_compute.
Defined.

End InvariantFacts.

Section RouteMore.
Import UndoRedoManager Server.

(** X17. After any sequence of requests with string texts and file
    names that are names of no inherited property, an undo on a file
    whose undo stack is not empty answers with a text that differs
    from the current one, and so does a redo when the redo stack is
    not empty. *)
Theorem undo_redo_change_text (rs : list request) (name : jstring) (f : file) :
  let st := serve initial rs in
  Forall ordinaryRequest rs →
  files st !! name = Some f →
  (undoStack (history f) ≠ [] →
     ∃ prev, (postUndo st name).2 = Content prev
             ∧ prev ≠ Rope.toString (content f))
  ∧ (redoStack (history f) ≠ [] →
     ∃ next, (postRedo st name).2 = Content next
             ∧ next ≠ Rope.toString (content f)).
Proof.
  intros st _ Hf.
  destruct (stateOk_serve initial rs stateOk_initial _ _ Hf) as [_ Hn].
  apply noRepeat_top_differs in Hn as [Hu Hr]. split.
  - intros Hne. destruct (snoc_cases (undoStack (history f))) as [E | (u & p & E)];
      [done|].
    exists p. unfold postUndo. rewrite Hf, (undo_snoc _ _ _ _ E). split; [done|].
    intros ->. by rewrite E, last_snoc in Hu.
  - intros Hne. destruct (snoc_cases (redoStack (history f))) as [E | (r & n & E)];
      [done|].
    exists n. unfold postRedo. rewrite Hf, (redo_snoc _ _ _ _ E). split; [done|].
    intros ->. by rewrite E, last_snoc in Hr.
Qed.

Lemma undo_redo_change_text_witness :
  ∃ prev, (postUndo (serve initial [PostUpdate (js "example.txt") (js "Hello")])
             (js "example.txt")).2 = Content prev
          ∧ prev ≠ js "Hello".
Proof.
  apply (undo_redo_change_text [PostUpdate (js "example.txt") (js "Hello")]
           (js "example.txt")
           (mkFile (Rope.newRope (js "Hello"))
              (mk [js "Welcome to the Editor." ++ [newline]
                     ++ js "Start typing to see the magic."] [] 50))).
  - apply (bool_decide_unpack _). by vm_compute.
  - by vm_compute.
  - by vm_compute.
Defined.



(** X19. In a state reached by requests with string texts and names
    that are names of no inherited property, and with two such names,
    a rename moves the file, text and history, to the new name and
    frees the old one, other files staying as they are; when the new
    name is the old name, the file is deleted. *)
Theorem postFiles_rename (st : state) (name old : jstring) (f : file) :
  ordinaryState st →
  name ∉ inheritedNames → old ∉ inheritedNames →
  old ≠ [] → files st !! old = Some f →
  let st' := (postFiles st name (Some old)).1 in
  files st' !! old = None
  ∧ (name ≠ old → files st' !! name = Some f)
  ∧ (name = old → files st' !! name = None)
  ∧ (∀ other, other ≠ name → other ≠ old → files st' !! other = files st !! other)
  ∧ suggestionTrie st' = suggestionTrie st.
Proof.
  intros _ _ _ Hold Hf st'. subst st'. unfold postFiles.
  rewrite bool_decide_eq_true_2, Hf by done. cbn [fst files suggestionTrie].
  split; [apply lookup_delete_eq|]. split; [|split; [|split; [|done]]].
  - intros Hne. rewrite lookup_delete_ne by done. apply lookup_insert_eq.
  - intros ->. apply lookup_delete_eq.
  - intros other H1 H2. rewrite lookup_delete_ne by done.
    by rewrite lookup_insert_ne.
Qed.

Lemma postFiles_rename_witness :
  files (postFiles initial (js "example.txt") (Some (js "example.txt"))).1
    !! js "example.txt" = None.
Proof.
  apply (postFiles_rename initial (js "example.txt") (js "example.txt")
           (mkFile (Rope.newRope (js "Welcome to the Editor." ++ [newline]
                                    ++ js "Start typing to see the magic."))
                   UndoRedoManager.new));
    [ by exists []
    | apply (bool_decide_unpack _); by vm_compute
    | apply (bool_decide_unpack _); by vm_compute
    | by vm_compute
    | by vm_compute
    | reflexivity ].
Defined.

(** X20. In a state reached by requests with string texts and names
    that are names of no inherited property, and with such names:
    without an old name, with the empty string as old name or with an
    old name that names no file, the request creates an empty file
    with an empty history under the name, in place of the file that
    had the name if there was one, other files staying as they are. *)
Theorem postFiles_create (st : state) (name : jstring) (oldName : option jstring) :
  ordinaryState st →
  name ∉ inheritedNames →
  (∀ old, oldName = Some old →
     old = [] ∨ ((old ∉ inheritedNames) ∧ files st !! old = None)) →
  let st' := (postFiles st name oldName).1 in
  files st' !! name = Some (mkFile (Rope.newRope []) UndoRedoManager.new)
  ∧ getFile st' name = Content []
  ∧ (∀ other, other ≠ name → files st' !! other = files st !! other)
  ∧ suggestionTrie st' = suggestionTrie st.
Proof.
  intros _ _ Hold st'.
  assert (E : postFiles st name oldName =
    (mkState (<[name := mkFile (Rope.newRope []) UndoRedoManager.new]> (files st))
             (suggestionTrie st), Success)).
  { unfold postFiles. destruct oldName as [old|]; [|done].
    destruct (Hold old eq_refl) as [-> | [_ Hnone]].
    - by rewrite bool_decide_eq_false_2 by (by intros []).
    - case_bool_decide; [by rewrite Hnone | done]. }
  subst st'. rewrite E. cbn [fst files suggestionTrie]. unfold getFile. cbn [files].
  rewrite lookup_insert_eq. split; [done|]. split; [done|]. split; [|done].
  intros other Hne. by rewrite lookup_insert_ne.
Qed.

Lemma postFiles_create_witness :
  getFile (postFiles initial (js "example.txt") (Some (js "missing.txt"))).1
    (js "example.txt") = Content [].
Proof.
  apply (postFiles_create initial (js "example.txt") (Some (js "missing.txt"))).
  - by exists [].
  - apply (bool_decide_unpack _). by vm_compute.
  - intros old [= <-]. right. split; [|by vm_compute].
    apply (bool_decide_unpack _). by vm_compute.
Defined.

(** X21. In a state reached by requests with string texts and names
    that are names of no inherited property, one more such request
    changes no file other than the ones it names, and no such request
    but an update changes the suggestion trie. *)
Theorem handle_frame (st : state) (r : request) (name : jstring) :
  ordinaryState st →
  ordinaryRequest r →
  name ∉ namesOf r →
  files (handle st r).1 !! name = files st !! name
  ∧ ((∀ n text, r ≠ PostUpdate n text) →
     suggestionTrie (handle st r).1 = suggestionTrie st).
Proof.
  intros _ _ Hname. destruct r as [n | n oldName | n | n text | n | n
                                | fuel text pattern | prefix | text];
    cbn [handle fst]; try done.
  - unfold postFiles. destruct oldName as [old|]; simpl in Hname.
    + apply not_elem_of_cons in Hname as [H1 Hname].
      apply not_elem_of_cons in Hname as [H2 _].
      case_bool_decide; [destruct (files st !! old)|]; cbn [fst files suggestionTrie];
        rewrite ?lookup_delete_ne, lookup_insert_ne by done; done.
    + apply not_elem_of_cons in Hname as [H1 _]. cbn [fst files suggestionTrie].
      by rewrite lookup_insert_ne.
  - apply not_elem_of_cons in Hname as [H1 _]. cbn [deleteFile fst files suggestionTrie].
    by rewrite lookup_delete_ne.
  - apply not_elem_of_cons in Hname as [H1 _]. split; [|by intros H; destruct (H n text)].
    unfold postUpdate. destruct (files st !! n); [|done].
    case_bool_decide; [|done]. cbn [fst files]. by rewrite lookup_insert_ne.
  - apply not_elem_of_cons in Hname as [H1 _].
    unfold postUndo. destruct (files st !! n); [|done].
    destruct (undo _ _). cbn [fst files suggestionTrie]. by rewrite lookup_insert_ne.
  - apply not_elem_of_cons in Hname as [H1 _].
    unfold postRedo. destruct (files st !! n); [|done].
    destruct (redo _ _). cbn [fst files suggestionTrie]. by rewrite lookup_insert_ne.
Qed.

Lemma handle_frame_witness :
  files (handle initial (DeleteFile (js "other.txt"))).1 !! js "example.txt"
  = files initial !! js "example.txt".
Proof.
  apply (handle_frame initial (DeleteFile (js "other.txt")) (js "example.txt")).
  - by exists [].
  - apply (bool_decide_unpack _). by vm_compute.
  - apply (bool_decide_unpack _). by vm_compute.
Defined.

(** X22. The vocabulary only grows: a word the trie contains is still
    contained after any sequence of requests. *)
Theorem vocabulary_grows (st : state) (rs : list request) (w : jstring) :
  Trie.contains (suggestionTrie st) w = true →
  Trie.contains (suggestionTrie (serve st rs)) w = true.
Proof.
  intros Hw. induction rs as [|r rs IH] using rev_ind; [done|].
  unfold serve in *. rewrite foldl_snoc.
  set (st1 := foldl _ st rs) in *.
  destruct r as [n | n oldName | n | n text | n | n
                | fuel text pattern | prefix | text];
    cbn [handle fst]; try done.
  - unfold postFiles. by repeat case_match.
  - unfold postUpdate. destruct (files st1 !! n); [|done].
    case_bool_decide; [|done]. cbn [fst suggestionTrie].
    apply contains_learn. by left.
  - unfold postUndo. destruct (files st1 !! n); [|done]. by destruct (undo _ _).
  - unfold postRedo. destruct (files st1 !! n); [|done]. by destruct (redo _ _).
Qed.

Lemma vocabulary_grows_witness :
  Trie.contains
    (suggestionTrie (serve initial [PostUpdate (js "example.txt") (js "new words")]))
    (js "Editor") = true.
Proof. apply vocabulary_grows. by vm_compute. Defined.

End RouteMore.

Section ManyEdits.
Import UndoRedoManager Server.







End ManyEdits.

Section SuggestFacts.
Import Server.

Lemma insertAll_app t ws1 ws2 :
  Trie.insertAll (Trie.insertAll t ws1) ws2 = Trie.insertAll t (ws1 ++ ws2).
Proof. unfold Trie.insertAll. by rewrite foldl_app. Qed.

Lemma learn_insertAll text : ∀ trie,
  ∃ words, learn trie text = Trie.insertAll trie words.
Proof.
  unfold learn. generalize (split text) as pieces.
  induction pieces as [|p pieces IH]; intros trie; [by exists []|].
  simpl. destruct (Z.ltb_spec 2 (len p)).
  - destruct (IH (Trie.insert trie (toLowerCase p))) as [ws ->].
    by exists (toLowerCase p :: ws).
  - apply IH.
Qed.

(** The trie of the server is always one built by insertions. *)
Lemma trie_built rs :
  ∃ words, suggestionTrie (serve initial rs) = Trie.insertAll Trie.newTrie words.
Proof.
  induction rs as [|r rs [ws IH]] using rev_ind; [by exists Trie.keywords|].
  unfold serve in *. rewrite foldl_snoc. set (st1 := foldl _ initial rs) in *.
  destruct r as [n | n oldName | n | n text | n | n
                | fuel text pattern | prefix | text];
    cbn [handle fst]; try by exists ws.
  - exists ws. rewrite <- IH. unfold postFiles. by repeat case_match.
  - unfold postUpdate. destruct (files st1 !! n); [|by exists ws].
    case_bool_decide; [|by exists ws]. cbn [fst suggestionTrie].
    destruct (learn_insertAll text (suggestionTrie st1)) as [ws' ->].
    exists (ws ++ ws'). by rewrite IH, insertAll_app.
  - exists ws. rewrite <- IH. unfold postUndo. destruct (files st1 !! n); [|done].
    by destruct (UndoRedoManager.undo _ _).
  - exists ws. rewrite <- IH. unfold postRedo. destruct (files st1 !! n); [|done].
    by destruct (UndoRedoManager.redo _ _).
Qed.

(** X24. After any sequence of requests, the autocomplete route
    answers with at most 8 suggestions, none of them twice, each
    beginning with the prefix in lower case and each a word the trie
    contains. *)
Theorem postAutocomplete_spec (rs : list request) (prefix : jstring) :
  ∃ suggestions,
    postAutocomplete (serve initial rs) prefix = Suggestions suggestions
    ∧ (length suggestions ≤ 8)%nat
    ∧ NoDup suggestions
    ∧ ∀ w, w ∈ suggestions →
        toLowerCase prefix `prefix_of` w
        ∧ Trie.contains (suggestionTrie (serve initial rs)) w = true.
Proof.
  eexists. split; [reflexivity|].
  destruct (trie_built rs) as [ws ->].
  split.
  { unfold Trie.find. destruct (Trie.descend _ _);
      [apply length__findAllWords | simpl; lia]. }
  split; [apply NoDup_find|].
  intros w Hw. apply find_elem in Hw as [Hp (u & Hu & <-)]. split; [done|].
  apply contains_insertAll. right. exists u. by rewrite toLowerCase_idemp.
Qed.

End SuggestFacts.

(** ** More on the rope *)

Section RopeMore.
Import Rope.

(** X25. Deleting the range an insert has just filled gives the text
    back: [insert(k, s)] then [delete(k, k + s.length)], for an offset
    inside the bounds. *)
Theorem insert_then_delete (b : Rope) (k : Z) (s : jstring) :
  0 ≤ k ≤ len (toString b) →
  (delete (insert b k s).1 k (k + len s)).2 = toString b
  ∧ toString (delete (insert b k s).1 k (k + len s)).1 = toString b.
Proof.
  intros Hk. set (t := toString b) in *.
  assert (E : toString (insert b k s).1
              = take (Z.to_nat k) t ++ s ++ drop (Z.to_nat k) t).
  { unfold insert. cbn [fst]. fold t.
    fold (newRope (slice t 0 k ++ s ++ sliceFrom t k)).
    rewrite toString_newRope, slice_prefix, sliceFrom_suffix.
    by rewrite !clampIndex_valid by lia. }
  assert (R : (delete (insert b k s).1 k (k + len s)).2 = t).
  { unfold delete. cbn [snd]. rewrite E.
    set (t1 := take (Z.to_nat k) t ++ s ++ drop (Z.to_nat k) t).
    assert (Hlen : len t1 = len t + len s).
    { unfold t1, len. rewrite !length_app, length_take, length_drop.
      unfold len in Hk. lia. }
    rewrite slice_prefix, sliceFrom_suffix.
    rewrite !clampIndex_valid by (unfold len in *; lia).
    assert (Hk' : length (take (Z.to_nat k) t) = Z.to_nat k).
    { rewrite length_take. unfold len in Hk. lia. }
    unfold t1. rewrite take_app_length' by done.
    replace (Z.to_nat (k + len s)) with (length (take (Z.to_nat k) t) + length s)%nat
      by (unfold len; lia).
    rewrite drop_app_add', drop_app_length by done. apply take_drop. }
  split; [done|]. exact R.
Qed.

Lemma insert_then_delete_witness :
  (delete (insert (newRope (js "Welcome to the Editor.")) 8 (js "back ")).1 8 (8 + 5)).2
  = js "Welcome to the Editor.".
Proof.
  apply (insert_then_delete (newRope (js "Welcome to the Editor.")) 8 (js "back ")).
  by vm_compute.
Defined.

(** X26. [_updateWeight] writes the weight and nothing else, so the
    text of the node is the same after it; and every rope the
    constructor, [insert] or [delete] makes is a single leaf whose
    weight is the length of its text, on which [_updateWeight] changes
    nothing. *)
Theorem rope_is_leaf (b : Rope) (str s : jstring) (index start end_ : Z)
    (node : RopeNode) :
  let leaf r :=
    root r = mkRopeNode (toString r) None None (len (toString r))
    ∧ _updateWeight (Some (root r)) = Some (root r) in
  (∃ node', _updateWeight (Some node) = Some node'
            ∧ nodeToString node' = nodeToString node)
  ∧ leaf (newRope str) ∧ leaf (insert b index s).1 ∧ leaf (delete b start end_).1.
Proof.
  assert (H : ∀ x, root (newRope x) = mkRopeNode (toString (newRope x)) None None
                                        (len (toString (newRope x)))
                   ∧ _updateWeight (Some (root (newRope x))) = Some (root (newRope x))).
  { intros x. split; [done|]. unfold newRope, newRopeNode.
    cbn [root _updateWeight]. do 2 f_equal.
    case_bool_decide as E; [done | by subst]. }
  split; [|by repeat split; apply H].
  destruct node as [value l r w]. eexists. split; [reflexivity|].
  by destruct l, r.
Qed.

End RopeMore.
